(** * Reconciliation of YAML records against the relational store

    A shallow embedding of [scripts/to_database.py]: the Django ORM calls the
    script makes are modelled as functions on an explicit store (tables of
    rows), exceptions as an error result, and [transaction.atomic] as a
    snapshot that is restored when the body raises.

    The store collaborator is modelled at the level of the calls the script
    makes: [get] (with [DoesNotExist] and [MultipleObjectsReturned]),
    [filter], [exclude], [count], [exists], [delete], [create] (a primary key
    is generated when none is given) and [save] (update by primary key, the
    modification timestamp is set to the current time).  A model instance has
    the attributes its row has columns for.  [delete] removes the rows of the
    query set from their table; what the ON DELETE rules of the schema then
    do to the rows of other tables that refer to them is the store's own and
    is not modelled, and nothing below is stated of such rows after a delete.
    Field coercion, column defaults and uniqueness constraints are not
    modelled either.

    The state threaded through the script is the database together with the
    memo table of [cached_lookup] (an LRU cache of 128 entries that a rolled
    back transaction does not clear).  The unbounded [while] loop of
    [sort_organizations] takes fuel, and running out of it is a result of its
    own, distinct from returning and from raising.  Python sets of ids are
    duplicate-free lists, and time is a logical clock that [save] reads. *)

From stdpp Require Import base gmap strings list fin_maps.
From Stdlib Require Import ZArith.

Open Scope string_scope.
Open Scope list_scope.

(** ** Values, rows and the store *)

(** A column value.  [VAuto] is a key generated by the store; [VMap] is a
    flat JSON object (the [extras] column). *)
Inductive value :=
  | VNone
  | VStr (s : string)
  | VInt (z : Z)
  | VAuto (n : nat)
  | VMap (m : gmap string string).

#[global] Instance value_eq_dec : EqDecision value.
Proof. solve_decision. Defined.

(** A stored row, an in-memory model instance and a [**kwargs] dictionary are
    all mappings from column name to value. *)
Abbreviation row := (gmap string value).

(** One entry of the write log. *)
Inductive write :=
  | WCreate (tbl : string) (r : row)
  | WSave (tbl : string) (r : row)
  | WDelete (tbl : string) (rs : list row)
  | WUpdate (tbl : string) (col : string) (rs : list row) (new : value).

Record store := Store {
  tables : gmap string (list row);
  next_id : nat;
  clock : nat;
  writes : list write
}.

Definition table (s : store) (tbl : string) : list row :=
  default [] (tables s !! tbl).

Definition set_table (tbl : string) (rs : list row) (w : write) (s : store) : store :=
  {| tables := <[tbl := rs]> (tables s);
     next_id := next_id s;
     clock := clock s;
     writes := writes s ++ [w] |}.

(** Model classes are named by their table. *)
Definition Person : string := "person".
Definition Organization : string := "organization".
Definition Jurisdiction : string := "jurisdiction".
Definition Post : string := "post".
Definition Membership : string := "membership".
Definition BillSponsorship : string := "billsponsorship".

(** The primary key of an instance. *)
Definition pk (r : row) : value := default VNone (r !! "id").

(** ** Query sets *)

(** [matches kw r]: every keyword of [kw] equals the column of [r]. *)
Definition matches (kw r : row) : bool :=
  bool_decide (map_Forall (λ k v, r !! k = Some v) kw).

(** A condition of a query set.  [Exclude kw] is [.exclude] with the keywords [kw]: the rows
    that match every keyword are dropped, and with no keyword none is.
    [ExcludeRel fk tbl kw] is [.exclude(fk__col=v, ...)]: the row is dropped
    when the row of [tbl] its column [fk] points to matches [kw]. *)
Inductive cond :=
  | Filter (kw : row)
  | FilterIn (col : string) (vs : list value)
  | Exclude (kw : row)
  | ExcludeRel (fk tbl : string) (kw : row).

Record queryset := QuerySet { qs_table : string; qs_conds : list cond }.

Definition related_matches (s : store) (fk tbl : string) (kw r : row) : bool :=
  existsb (λ o, bool_decide (r !! fk = Some (pk o)) && matches kw o) (table s tbl).

Definition sat (s : store) (r : row) (c : cond) : bool :=
  match c with
  | Filter kw => matches kw r
  | FilterIn col vs =>
      match r !! col with
      | Some v => bool_decide (v ∈ vs)
      | None => false
      end
  | Exclude kw => if bool_decide (kw = ∅) then true else negb (matches kw r)
  | ExcludeRel fk tbl kw => negb (related_matches s fk tbl kw r)
  end.

Definition visible (s : store) (q : queryset) (r : row) : bool :=
  forallb (sat s r) (qs_conds q).

Definition qs_rows (s : store) (q : queryset) : list row :=
  List.filter (visible s q) (table s (qs_table q)).

Definition qs_filter (kw : row) (q : queryset) : queryset :=
  {| qs_table := qs_table q; qs_conds := qs_conds q ++ [Filter kw] |}.

Definition qs_filter_in (col : string) (vs : list value) (q : queryset) : queryset :=
  {| qs_table := qs_table q; qs_conds := qs_conds q ++ [FilterIn col vs] |}.

Definition qs_exclude (kw : row) (q : queryset) : queryset :=
  {| qs_table := qs_table q; qs_conds := qs_conds q ++ [Exclude kw] |}.

Definition qs_exclude_rel (fk tbl : string) (kw : row) (q : queryset) : queryset :=
  {| qs_table := qs_table q; qs_conds := qs_conds q ++ [ExcludeRel fk tbl kw] |}.

Definition default_manager (ModelCls : string) : queryset :=
  {| qs_table := ModelCls; qs_conds := [] |}.

(** ** Reads and writes on the store *)

Definition qs_count (s : store) (q : queryset) : nat := length (qs_rows s q).

Definition qs_exists (s : store) (q : queryset) : bool :=
  match qs_rows s q with [] => false | _ => true end.

(** [.delete()]: the rows of the query set are removed from their table,
    the others stay in place. *)
Definition qs_delete (q : queryset) (s : store) : store :=
  set_table (qs_table q)
    (List.filter (λ r, negb (visible s q r)) (table s (qs_table q)))
    (WDelete (qs_table q) (qs_rows s q)) s.

(** [.update(col=new)] on a query set. *)
Definition qs_update (q : queryset) (col : string) (new : value) (s : store) : store :=
  set_table (qs_table q)
    (List.map (λ r, if visible s q r then <[col := new]> r else r) (table s (qs_table q)))
    (WUpdate (qs_table q) col (qs_rows s q) new) s.

(** The row [create] inserts: the keywords, and a generated key when the
    keywords give none. *)
Definition new_row (kw : row) (s : store) : row :=
  match kw !! "id" with
  | Some _ => kw
  | None => <["id" := VAuto (next_id s)]> kw
  end.

Definition insert_row (tbl : string) (r : row) (s : store) : store :=
  {| tables := <[tbl := table s tbl ++ [r]]> (tables s);
     next_id := S (next_id s);
     clock := clock s;
     writes := writes s ++ [WCreate tbl r] |}.

(** The timestamps [save] and [create] put on an instance of a model class. *)
Definition stamp_created (s : store) (r : row) : row :=
  <["updated_at" := VInt (Z.of_nat (clock s))]>
    (<["created_at" := VInt (Z.of_nat (clock s))]> r).

Definition stamp_updated (s : store) (r : row) : row :=
  <["updated_at" := VInt (Z.of_nat (clock s))]> r.

Definition tick (s : store) : store :=
  {| tables := tables s; next_id := next_id s; clock := S (clock s);
     writes := writes s |}.

(** [instance.save()]: the row with the instance's key is overwritten (the
    instance is inserted when no row has it), with a new modification time. *)
Definition save_row (tbl : string) (r : row) (s : store) : store :=
  let r' := stamp_updated s r in
  let same (x : row) := bool_decide (x !! "id" = r !! "id") in
  let rs := table s tbl in
  tick (set_table tbl
          (if existsb same rs
           then List.map (λ x, if same x then r' else x) rs
           else rs ++ [r'])
          (WSave tbl r') s).

(** ** The state and error monad *)

Inductive exn :=
  | CancelTransaction
  | DoesNotExist (ModelCls : string)
  | MultipleObjectsReturned (ModelCls : string)
  | ValueError (msg : string)
  | KeyError (key : string)
  | AttributeError (name : string)
  | NameError (name : string)
  | AssertionError
  | SystemExit (code : nat).

#[global] Instance exn_eq_dec : EqDecision exn.
Proof. solve_decision. Defined.

(** The outcome of a call: it returns, it raises, or (for the one unbounded
    loop of the script, which is run on fuel) it has not finished. *)
Inductive result (A : Type) :=
  | Ok (a : A)
  | Raise (e : exn)
  | OutOfFuel.
Arguments Ok {A} a.
Arguments Raise {A} e.
Arguments OutOfFuel {A}.

(** The process state: the database and the [lru_cache] of [cached_lookup],
    most recently used entry first. *)
Record state := State {
  db : store;
  cache : list ((string * row) * row)
}.

Definition M (A : Type) : Type := state → result A * state.

Definition ret {A} (a : A) : M A := λ st, (Ok a, st).

Definition bind {A B} (m : M A) (k : A → M B) : M B :=
  λ st, match m st with
        | (Ok a, st') => k a st'
        | (Raise e, st') => (Raise e, st')
        | (OutOfFuel, st') => (OutOfFuel, st')
        end.

Definition raise {A} (e : exn) : M A := λ st, (Raise e, st).

(** The outcome of a computation that has no effect on the state. *)
Definition lift_result {A} (r : result A) : M A := λ st, (r, st).

(** [try: m except ...]: [handler e] is the body of the first [except]
    clause that catches [e], if there is one. *)
Definition try_except {A} (m : M A) (handler : exn → option (M A)) : M A :=
  λ st, match m st with
        | (Raise e, st') =>
            match handler e with
            | Some h => h st'
            | None => (Raise e, st')
            end
        | r => r
        end.

(** [except e0: h]. *)
Definition except {A} (e0 : exn) (h : M A) (e : exn) : option (M A) :=
  if bool_decide (e = e0) then Some h else None.

Definition read {A} (f : store → A) : M A := λ st, (Ok (f (db st)), st).

Definition write_db (f : store → store) : M unit :=
  λ st, (Ok tt, {| db := f (db st); cache := cache st |}).

Declare Scope m_scope.
Delimit Scope m_scope with M.
Notation "x <- m ;; k" := (bind m (λ x, k))
  (at level 100, m at next level, right associativity) : m_scope.
Notation "m ;;; k" := (bind m (λ _, k))
  (at level 100, right associativity) : m_scope.
Open Scope m_scope.

(** [for x in xs: body x]. *)
Fixpoint for_each {A} (xs : list A) (body : A → M unit) : M unit :=
  match xs with
  | [] => ret tt
  | x :: xs' => body x ;;; for_each xs' body
  end.

(** [with transaction.atomic(): m]: when the body raises, the database is put
    back as it was on entry and the exception propagates. *)
Definition atomic {A} (m : M A) : M A :=
  λ st, match m st with
        | (Raise e, st') => (Raise e, {| db := db st; cache := cache st' |})
        | r => r
        end.

(** ** The ORM calls of the script *)

(** [qs.get()]: the single row of the query set. *)
Definition qs_get (q : queryset) : M row :=
  λ st, match qs_rows (db st) q with
        | [] => (Raise (DoesNotExist (qs_table q)), st)
        | [r] => (Ok r, st)
        | _ => (Raise (MultipleObjectsReturned (qs_table q)), st)
        end.

(** [ModelCls.objects.get(kwargs)]. *)
Definition objects_get (ModelCls : string) (kwargs : row) : M row :=
  qs_get (qs_filter kwargs (default_manager ModelCls)).

(** [ModelCls.objects.create(kwargs)]: returns the new instance. *)
Definition objects_create (ModelCls : string) (kwargs : row) : M row :=
  λ st, let r := stamp_created (db st) (new_row kwargs (db st)) in
        (Ok r, {| db := tick (insert_row ModelCls r (db st)); cache := cache st |}).

(** [instance.save()]. *)
Definition save (ModelCls : string) (instance : row) : M unit :=
  write_db (save_row ModelCls instance).

(** A related manager, [getattr(instance, fieldname)]: the rows of [rm_table]
    whose column [rm_fk] is the key of the owner. *)
Record manager := Manager { rm_table : string; rm_fk : string; rm_owner : value }.

Definition all (m : manager) : queryset :=
  {| qs_table := rm_table m; qs_conds := [Filter {[ rm_fk m := rm_owner m ]}] |}.

(** [manager.create(kwargs)]: the owner is filled in. *)
Definition manager_create (m : manager) (kwargs : row) : M unit :=
  write_db (λ s, insert_row (rm_table m) (new_row (<[rm_fk m := rm_owner m]> kwargs) s) s).

(** The relations of the schema the script goes through: memberships are one
    table with a column for the person and one for the organization, posts
    belong to an organization, every other sub-collection has a table of its
    own per model class. *)
Definition related (ModelCls : string) (instance : row) (fieldname : string) : manager :=
  if bool_decide (fieldname = "memberships") then
    {| rm_table := Membership; rm_fk := ModelCls; rm_owner := pk instance |}
  else if bool_decide (fieldname = "posts") then
    {| rm_table := Post; rm_fk := ModelCls; rm_owner := pk instance |}
  else
    {| rm_table := ModelCls +:+ "_" +:+ fieldname; rm_fk := ModelCls;
       rm_owner := pk instance |}.

(** A model instance in memory: its class and its fields. *)
Record instance := Instance { i_model : string; i_fields : row }.

Definition getattr (o : instance) (fieldname : string) : manager :=
  related (i_model o) (i_fields o) fieldname.

(** ** [update_subobjects] (to_database.py, lines 34-69) *)

Definition update_subobjects (person : instance) (fieldname : string)
    (objects : list row) (read_manager : option queryset) : M bool :=
  let manager := getattr person fieldname in
  let read_manager := default (all manager) read_manager in
  current_count <- read (λ s, qs_count s read_manager) ;;
  let updated := bool_decide (current_count ≠ length objects) in
  updated <- (if negb updated then
                let qs := foldl (λ qs obj, qs_exclude obj qs) read_manager objects in
                nonempty <- read (λ s, qs_exists s qs) ;;
                ret (if nonempty then true else updated)
              else ret updated) ;;
  if updated then
    (if bool_decide (current_count ≠ 0)
     then write_db (qs_delete read_manager) else ret tt) ;;;
    for_each objects (λ obj, manager_create manager obj) ;;;
    save (i_model person) (i_fields person) ;;;
    ret updated
  else ret updated.

(** ** [get_update_or_create] (to_database.py, lines 72-86) *)

(** [{k: data[k] for k in lookup_keys}]. *)
Fixpoint lookup_kwargs (data : row) (lookup_keys : list string) : M row :=
  match lookup_keys with
  | [] => ret ∅
  | k :: ks =>
      match data !! k with
      | None => raise (KeyError k)
      | Some v => kwargs <- lookup_kwargs data ks ;; ret (<[k := v]> kwargs)
      end
  end.

(** The loop over [data.items()] (lines 77-80): [getattr(obj, field)] raises
    [AttributeError] when the instance has no such attribute, and a field
    that differs from the stored one is set on the instance.  The fields are
    gone through in the order of the map, not in the order of the [dict]:
    when the instance lacks several of them, the one the exception names is
    the first of them in that order. *)
Definition set_differing (data obj : row) : result (row * bool) :=
  map_fold (λ field v (acc : result (row * bool)),
              match acc with
              | Ok (obj, updated) =>
                  match obj !! field with
                  | None => Raise (AttributeError field)
                  | Some stored =>
                      if bool_decide (stored = v) then Ok (obj, updated)
                      else Ok (<[field := v]> obj, true)
                  end
              | Raise e => Raise e
              | OutOfFuel => OutOfFuel
              end)
           (Ok (obj, false)) data.

Definition get_update_or_create (ModelCls : string) (data : row)
    (lookup_keys : list string) : M (row * bool * bool) :=
  kwargs <- lookup_kwargs data lookup_keys ;;
  try_except
    (obj <- objects_get ModelCls kwargs ;;
     obj_updated <- lift_result (set_differing data obj) ;;
     (if obj_updated.2 then save ModelCls obj_updated.1 else ret tt) ;;;
     ret (obj_updated.1, false, obj_updated.2))
    (except (DoesNotExist ModelCls)
       (obj <- objects_create ModelCls data ;;
        ret (obj, true, false))).

(** ** Input records *)

(** A parsed YAML mapping: its scalar entries, its entries that are lists of
    mappings, and its entries that are mappings (in file order). *)
Record document := Document {
  scalars : row;
  sequences : gmap string (list row);
  mappings : gmap string (list (string * value))
}.

#[global] Instance document_eq_dec : EqDecision document.
Proof. solve_decision. Defined.

(** [d[key]]. *)
Definition getitem (d : row) (key : string) : M value :=
  match d !! key with
  | Some v => ret v
  | None => raise (KeyError key)
  end.

(** [d.get(key, dflt)]. *)
Definition dict_get (d : row) (key : string) (dflt : value) : value :=
  default dflt (d !! key).

(** [data.get(key, [])] and [data.get(key, {}).items()]. *)
Definition get_list (data : document) (key : string) : list row :=
  default [] (sequences data !! key).

Definition get_items (data : document) (key : string) : list (string * value) :=
  default [] (mappings data !! key).

(** Truth value of a Python object. *)
Definition truthy (v : value) : bool :=
  match v with
  | VNone => false
  | VStr s => negb (bool_decide (s = ""))
  | VInt z => negb (bool_decide (z = 0%Z))
  | VAuto _ => true
  | VMap m => negb (bool_decide (m = ∅))
  end.

(** [v.startswith(p)]. *)
Definition startswith (v : value) (p : string) : result bool :=
  match v with
  | VStr s => Ok (String.prefix p s)
  | _ => Raise (AttributeError "startswith")
  end.

(** [x in xs] for a list, a tuple or a set of values. *)
Definition contains (xs : list value) (x : value) : bool := bool_decide (x ∈ xs).

(** ** [cached_lookup] (to_database.py, lines 29-31) *)

Definition lru_maxsize : nat := 128.

(** [lru_cache(128)] around [ModelCls.objects.get]: a hit returns the cached
    instance and makes it the most recent entry; a miss that returns is
    cached, dropping the least recent entry when the cache is full; a miss
    that raises is not cached. *)
Definition cached_lookup (ModelCls : string) (kwargs : row) : M row :=
  λ st,
    let key := (ModelCls, kwargs) in
    match List.find (λ e, bool_decide (e.1 = key)) (cache st) with
    | Some e =>
        (Ok e.2,
         {| db := db st;
            cache := e :: List.filter (λ e', negb (bool_decide (e'.1 = key))) (cache st) |})
    | None =>
        match objects_get ModelCls kwargs st with
        | (Ok r, st') =>
            (Ok r, {| db := db st';
                      cache := take lru_maxsize ((key, r) :: cache st') |})
        | res => res
        end
    end.

(** ** [sort_organizations] (to_database.py, lines 233-250) *)

(** A file of the batch: the parsed record and its name. *)
Abbreviation entry := (document * string)%type.

(** The variables of the loop: [orgs], [order] and [seen]. *)
Record sorting := Sorting {
  orgs : list entry;
  order : list entry;
  seen : list value
}.

(** [xs.remove(x)]: the first element equal to [x] goes; [ValueError] when
    there is none. *)
Fixpoint list_remove (x : entry) (xs : list entry) : result (list entry) :=
  match xs with
  | [] => Raise (ValueError "list.remove(x): x not in list")
  | y :: ys =>
      if bool_decide (x = y) then Ok ys
      else match list_remove x ys with
           | Ok ys' => Ok (y :: ys')
           | r => r
           end
  end.

(** The condition of line 240. *)
Definition ready (seen : list value) (parent : value) : result bool :=
  match startswith parent "ocd-organization" with
  | Ok is_id => Ok ((is_id && contains seen parent) || negb is_id)
  | Raise e => Raise e
  | OutOfFuel => OutOfFuel
  end.

(** The body of the [for] loop (lines 240-245) for one entry. *)
Definition sort_visit (e : entry) (st : sorting) : result sorting :=
  match scalars e.1 !! "parent" with
  | None => Raise (KeyError "parent")
  | Some parent =>
      match ready (seen st) parent with
      | Ok true =>
          match scalars e.1 !! "id" with
          | None => Raise (KeyError "id")
          | Some id =>
              match list_remove e (orgs st) with
              | Ok rest =>
                  Ok {| orgs := rest; order := order st ++ [e]; seen := id :: seen st |}
              | Raise err => Raise err
              | OutOfFuel => OutOfFuel
              end
          end
      | Ok false => Ok st
      | Raise err => Raise err
      | OutOfFuel => OutOfFuel
      end
  end.

(** One pass of the [for] loop over the copy [list(orgs)]. *)
Fixpoint sort_pass (snapshot : list entry) (st : sorting) : result sorting :=
  match snapshot with
  | [] => Ok st
  | e :: rest =>
      match sort_visit e st with
      | Ok st' => sort_pass rest st'
      | r => r
      end
  end.

(** [while orgs: ...], at most [fuel] passes. *)
Fixpoint sort_loop (fuel : nat) (st : sorting) : result sorting :=
  match orgs st with
  | [] => Ok st
  | _ :: _ =>
      match fuel with
      | 0 => OutOfFuel
      | S fuel' =>
          match sort_pass (orgs st) st with
          | Ok st' => sort_loop fuel' st'
          | r => r
          end
      end
  end.

Definition sort_organizations (fuel : nat) (orgs : list entry) : result (list entry) :=
  let how_many := length orgs in
  match sort_loop fuel {| orgs := orgs; order := []; seen := [] |} with
  | Ok st =>
      if bool_decide (length (order st) = how_many) then Ok (order st)
      else Raise AssertionError
  | Raise e => Raise e
  | OutOfFuel => OutOfFuel
  end.

Section Loaders.

(** [utils.legacy_districts(jurisdiction_id=...)]: the legacy district labels
    of a jurisdiction, per role type. *)
Variable legacy_districts : value → gmap string (list value).

(** ** [load_person] (to_database.py, lines 89-180) *)

(** The scalar fields of a person (lines 93-104). *)
Definition person_fields (data : document) : M row :=
  id <- getitem (scalars data) "id" ;;
  name <- getitem (scalars data) "name" ;;
  ret (<["id" := id]> (<["name" := name]> (
       <["given_name" := dict_get (scalars data) "given_name" (VStr "")]> (
       <["family_name" := dict_get (scalars data) "family_name" (VStr "")]> (
       <["gender" := dict_get (scalars data) "gender" (VStr "")]> (
       <["biography" := dict_get (scalars data) "biography" (VStr "")]> (
       <["birth_date" := dict_get (scalars data) "birth_date" (VStr "")]> (
       <["death_date" := dict_get (scalars data) "death_date" (VStr "")]> (
       <["image" := dict_get (scalars data) "image" (VStr "")]> (
       <["extras" := dict_get (scalars data) "extras" (VMap ∅)]> ∅)))))))))).

(** Lines 111-115. *)
Definition person_identifiers (data : document) : list row :=
  List.map (λ sv : string * value,
              ({[ "scheme" := VStr sv.1; "identifier" := sv.2 ]} : row))
           (get_items data "ids")
  ++ get_list data "other_identifiers".

(** Lines 118-124: one row per populated contact channel. *)
Definition contact_rows (cd : row) : list row :=
  flat_map (λ type : string,
              match cd !! type with
              | Some v =>
                  if truthy v
                  then [({[ "note" := dict_get cd "note" (VStr "");
                            "type" := VStr type; "value" := v ]} : row)]
                  else []
              | None => []
              end)
           ["address"; "email"; "voice"; "fax"].

Definition person_contact_details (data : document) : list row :=
  flat_map contact_rows (get_list data "contact_details").

(** Lines 128-140: a party entry becomes a membership of the party. *)
Definition party_membership (party : row) : M row :=
  name <- getitem party "name" ;;
  org <- try_except
           (cached_lookup Organization
              {[ "classification" := VStr "party"; "name" := name ]})
           (except (DoesNotExist Organization) (raise CancelTransaction)) ;;
  ret ({[ "organization" := pk org;
          "start_date" := dict_get party "start_date" (VStr "");
          "end_date" := dict_get party "end_date" (VStr "") ]} : row).

(** [org.posts.get(label=district)]. *)
Definition posts_get (org : row) (district : value) : M row :=
  qs_get (qs_filter {[ "label" := district ]} (all (related Organization org "posts"))).

(** Lines 143-160 and 163-170: a seat in a chamber of type [t]; [None] is the
    [continue] of a legacy district. *)
Definition chamber_membership (role : row) (t : string) : M (option row) :=
  found <- try_except
    (jurisdiction <- getitem role "jurisdiction" ;;
     org <- cached_lookup Organization
              {[ "classification" := VStr t; "jurisdiction_id" := jurisdiction ]} ;;
     district <- getitem role "district" ;;
     post <- posts_get org district ;;
     ret (Some (org, post)))
    (λ e,
       if bool_decide (e = DoesNotExist Organization) then
         Some (raise CancelTransaction)
       else if bool_decide (e = DoesNotExist Post) then
         Some (jurisdiction <- getitem role "jurisdiction" ;;
               district <- getitem role "district" ;;
               match legacy_districts jurisdiction !! t with
               | Some lds =>
                   if contains lds district then ret None
                   else raise CancelTransaction
               | None => raise (KeyError t)
               end)
       else None) ;;
  match found with
  | Some (org, post) =>
      ret (Some ({[ "organization" := pk org;
                    "post" := pk post;
                    "start_date" := dict_get role "start_date" (VStr "");
                    "end_date" := dict_get role "end_date" (VStr "") ]} : row))
  | None => ret None
  end.

(** Lines 141-170 for one role. *)
Definition role_membership (role : row) : M (option row) :=
  type <- getitem role "type" ;;
  if contains [VStr "upper"; VStr "lower"; VStr "legislature"] type then
    match type with
    | VStr t => chamber_membership role t
    | _ => raise (ValueError "unsupported role type")
    end
  else raise (ValueError "unsupported role type").

(** The two loops that build [memberships]. *)
Fixpoint party_memberships (parties : list row) : M (list row) :=
  match parties with
  | [] => ret []
  | party :: rest =>
      m <- party_membership party ;;
      ms <- party_memberships rest ;;
      ret (m :: ms)
  end.

Fixpoint role_memberships (roles : list row) : M (list row) :=
  match roles with
  | [] => ret []
  | role :: rest =>
      m <- role_membership role ;;
      ms <- role_memberships rest ;;
      ret (match m with Some m => m :: ms | None => ms end)
  end.

Definition person_memberships (data : document) : M (list row) :=
  ps <- party_memberships (get_list data "party") ;;
  rs <- role_memberships (get_list data "roles") ;;
  ret (ps ++ rs).

(** [person.memberships.exclude(organization__classification="committee")]. *)
Definition non_committee (person : instance) : queryset :=
  qs_exclude_rel "organization" Organization
    {[ "classification" := VStr "committee" ]}
    (all (getattr person "memberships")).

Definition load_person (data : document) : M (bool * bool) :=
  fields <- person_fields data ;;
  r <- get_update_or_create Person fields ["id"] ;;
  let person := Instance Person r.1.1 in
  let created := r.1.2 in
  let updated := r.2 in
  u <- update_subobjects person "other_names" (get_list data "other_names") None ;;
  let updated := updated || u in
  u <- update_subobjects person "links" (get_list data "links") None ;;
  let updated := updated || u in
  u <- update_subobjects person "sources" (get_list data "sources") None ;;
  let updated := updated || u in
  u <- update_subobjects person "identifiers" (person_identifiers data) None ;;
  let updated := updated || u in
  u <- update_subobjects person "contact_details" (person_contact_details data) None ;;
  let updated := updated || u in
  memberships <- person_memberships data ;;
  u <- update_subobjects person "memberships" memberships
         (Some (non_committee person)) ;;
  let updated := updated || u in
  ret (created, updated).

(** ** [load_org] (to_database.py, lines 183-230) *)

(** Lines 186-192. *)
Definition org_parent (data : document) : M row :=
  parent_id <- getitem (scalars data) "parent" ;;
  is_id <- lift_result (startswith parent_id "ocd-organization") ;;
  if is_id then objects_get Organization {[ "id" := parent_id ]}
  else
    jurisdiction <- getitem (scalars data) "jurisdiction" ;;
    objects_get Organization
      {[ "jurisdiction_id" := jurisdiction; "classification" := parent_id ]}.

(** Lines 194-202. *)
Definition org_fields (data : document) (parent : row) : M row :=
  id <- getitem (scalars data) "id" ;;
  name <- getitem (scalars data) "name" ;;
  jurisdiction <- getitem (scalars data) "jurisdiction" ;;
  classification <- getitem (scalars data) "classification" ;;
  ret (<["id" := id]> (<["name" := name]> (
       <["jurisdiction_id" := jurisdiction]> (
       <["classification" := classification]> (
       <["founding_date" := dict_get (scalars data) "founding_date" (VStr "")]> (
       <["dissolution_date" := dict_get (scalars data) "dissolution_date" (VStr "")]> (
       <["parent" := pk parent]> ∅))))))).

(** Lines 209-227 for one entry of [memberships]. *)
Definition org_membership (role : row) : M row :=
  person <- (if truthy (dict_get role "id" VNone) then
               id <- getitem role "id" ;;
               p <- try_except (objects_get Person {[ "id" := id ]})
                      (except (DoesNotExist Person) (raise CancelTransaction)) ;;
               ret (pk p)
             else ret VNone) ;;
  name <- getitem role "name" ;;
  ret ({[ "person" := person;
          "person_name" := name;
          "role" := dict_get role "role" (VStr "member");
          "start_date" := dict_get role "start_date" (VStr "");
          "end_date" := dict_get role "end_date" (VStr "") ]} : row).

Fixpoint org_memberships (roles : list row) : M (list row) :=
  match roles with
  | [] => ret []
  | role :: rest =>
      m <- org_membership role ;;
      ms <- org_memberships rest ;;
      ret (m :: ms)
  end.

Definition load_org (data : document) : M (bool * bool) :=
  parent <- org_parent data ;;
  fields <- org_fields data parent ;;
  r <- get_update_or_create Organization fields ["id"] ;;
  let org := Instance Organization r.1.1 in
  let created := r.1.2 in
  let updated := r.2 in
  u <- update_subobjects org "links" (get_list data "links") None ;;
  let updated := updated || u in
  u <- update_subobjects org "sources" (get_list data "sources") None ;;
  let updated := updated || u in
  memberships <- org_memberships (get_list data "memberships") ;;
  u <- update_subobjects org "memberships" memberships None ;;
  let updated := updated || u in
  ret (created, updated).

(** ** [create_juris_orgs_posts] (to_database.py, lines 260-298) *)

(** What [openstates_metadata] knows of a state. *)
Record district := District {
  district_name : value;
  district_division_id : value;
  num_seats : value
}.

Record chamber := Chamber {
  chamber_type : string;
  chamber_name : value;
  title : value;
  districts : list district
}.

Record state_metadata := StateMetadata {
  state_jurisdiction_id : value;
  state_name : value;
  state_url : value;
  state_division_id : value;
  chambers : list chamber
}.

(** [metadata.lookup(jurisdiction_id=...)]. *)
Variable metadata_lookup : value → state_metadata.

(** [ModelCls.objects.update_or_create(kwargs, defaults=...)]. *)
Definition update_or_create (ModelCls : string) (kwargs defaults : row) : M (row * bool) :=
  try_except
    (obj <- objects_get ModelCls kwargs ;;
     let obj := defaults ∪ obj in
     save ModelCls obj ;;;
     ret (obj, false))
    (except (DoesNotExist ModelCls)
       (obj <- objects_create ModelCls (defaults ∪ kwargs) ;;
        ret (obj, true))).

(** [ModelCls.objects.get_or_create(kwargs)]. *)
Definition get_or_create (ModelCls : string) (kwargs : row) : M (row * bool) :=
  try_except
    (obj <- objects_get ModelCls kwargs ;;
     ret (obj, false))
    (except (DoesNotExist ModelCls)
       (obj <- objects_create ModelCls kwargs ;;
        ret (obj, true))).

Definition chamber_posts (c : chamber) : list row :=
  List.map (λ d, ({[ "label" := district_name d;
                     "role" := title c;
                     "division_id" := district_division_id d;
                     "maximum_memberships" := num_seats d ]} : row))
           (districts c).

Definition create_juris_orgs_posts (jurisdiction_id : value) : M unit :=
  let state := metadata_lookup jurisdiction_id in
  juris <- update_or_create Jurisdiction
             {[ "id" := state_jurisdiction_id state ]}
             {[ "name" := state_name state;
                "url" := state_url state;
                "classification" := VStr "government";
                "division_id" := state_division_id state ]} ;;
  for_each (chambers state) (λ c,
    org <- update_or_create Organization
             {[ "jurisdiction_id" := pk juris.1;
                "classification" :=
                  VStr (if bool_decide (chamber_type c = "unicameral")
                        then "legislature" else chamber_type c) ]}
             {[ "name" := chamber_name c ]} ;;
    updated <- update_subobjects (Instance Organization org.1) "posts"
                 (chamber_posts c) None ;;
    ret tt).

(** ** [load_directory] (to_database.py, lines 301-385) *)

(** [set(Person.objects.filter(
       memberships__organization__jurisdiction_id=jurisdiction_id
     ).values_list("id", flat=True))]. *)
Definition person_ids (jurisdiction_id : value) (s : store) : list value :=
  remove_dups
    (List.map pk
       (List.filter
          (λ p, existsb
                  (λ m, bool_decide (m !! Person = Some (pk p))
                        && related_matches s Organization Organization
                             {[ "jurisdiction_id" := jurisdiction_id ]} m)
                  (table s Membership))
          (table s Person))).

(** [set(Organization.objects.filter(
       jurisdiction_id=jurisdiction_id, classification="committee"
     ).values_list("id", flat=True))]. *)
Definition committee_ids (jurisdiction_id : value) (s : store) : list value :=
  remove_dups
    (List.map pk
       (qs_rows s (qs_filter {[ "jurisdiction_id" := jurisdiction_id;
                                "classification" := VStr "committee" ]}
                     (default_manager Organization)))).

(** [ModelCls.objects.get(identifiers__identifier=missing_id,
                          identifiers__scheme="openstates")]: the join of the
    model class with its identifiers. *)
Definition get_by_identifier (ModelCls : string) (missing_id : value) : M row :=
  λ st,
    let s := db st in
    let hits (e : row) :=
      qs_rows s (qs_filter {[ "identifier" := missing_id; "scheme" := VStr "openstates" ]}
                   (all (related ModelCls e "identifiers"))) in
    match flat_map (λ e, List.map (λ _, e) (hits e)) (table s ModelCls) with
    | [] => (Raise (DoesNotExist ModelCls), st)
    | [e] => (Ok e, st)
    | _ => (Raise (MultipleObjectsReturned ModelCls), st)
    end.

(** The totals [load_directory] reports. *)
Record totals := Totals {
  ids : list value;
  created_count : nat;
  updated_count : nat
}.

(** Lines 340-349. *)
Fixpoint load_all (load_func : document → M (bool * bool)) (all_data : list entry)
    (acc : totals) : M totals :=
  match all_data with
  | [] => ret acc
  | (data, filename) :: rest =>
      id <- getitem (scalars data) "id" ;;
      cu <- load_func data ;;
      load_all load_func rest
        {| ids := if contains (ids acc) id then ids acc else ids acc ++ [id];
           created_count := if cu.1 then S (created_count acc) else created_count acc;
           updated_count := if cu.1 then updated_count acc
                            else if cu.2 then S (updated_count acc)
                            else updated_count acc |}
  end.

(** Lines 354-361. *)
Fixpoint find_merges (ModelCls : string) (missing_ids : list value)
    : M (list (value * value)) :=
  match missing_ids with
  | [] => ret []
  | missing_id :: rest =>
      found <- try_except
                 (found <- get_by_identifier ModelCls missing_id ;;
                  ret [(missing_id, pk found)])
                 (except (DoesNotExist ModelCls) (ret [])) ;;
      merged <- find_merges ModelCls rest ;;
      ret (found ++ merged)
  end.

(** Lines 365-369.  [BillSponsorship] is bound by the import of line 309, in
    the branch of [type == "person"] only. *)
Fixpoint apply_merges (type ModelCls : string) (merged : list (value * value))
    (missing_ids : list value) : M (list value) :=
  match merged with
  | [] => ret missing_ids
  | (old, new) :: rest =>
      (if bool_decide (type = "person") then
         write_db (qs_update (qs_filter {[ "person_id" := old ]}
                                (default_manager BillSponsorship))
                     "person_id" new)
       else raise (NameError "BillSponsorship")) ;;;
      write_db (qs_delete (qs_filter {[ "id" := old ]} (default_manager ModelCls))) ;;;
      apply_merges type ModelCls rest
        (List.filter (λ x, negb (bool_decide (x = old))) missing_ids)
  end.

(** Lines 372-380. *)
Definition purge_gate (ModelCls : string) (missing_ids : list value) (purge : bool)
    : M unit :=
  match missing_ids with
  | _ :: _ =>
      if negb purge then
        for_each missing_ids (λ id,
          mobj <- objects_get ModelCls {[ "id" := id ]} ;; ret tt) ;;;
        raise CancelTransaction
      else
        write_db (qs_delete (qs_filter_in "id" missing_ids (default_manager ModelCls)))
  | [] => ret tt
  end.

Definition load_directory (fuel : nat) (files : list entry) (type : string)
    (jurisdiction_id : value) (purge : bool) : M totals :=
  setup <- (if bool_decide (type = "person") then
              existing_ids <- read (person_ids jurisdiction_id) ;;
              ret (existing_ids, Person, load_person)
            else if bool_decide (type = "organization") then
              existing_ids <- read (committee_ids jurisdiction_id) ;;
              ret (existing_ids, Organization, load_org)
            else raise (ValueError type)) ;;
  let existing_ids := setup.1.1 in
  let ModelCls := setup.1.2 in
  let load_func := setup.2 in
  all_data <- (if bool_decide (type = "organization")
               then lift_result (sort_organizations fuel files)
               else ret files) ;;
  loaded <- load_all load_func all_data
              {| ids := []; created_count := 0; updated_count := 0 |} ;;
  let missing_ids := list_difference existing_ids (ids loaded) in
  merged <- find_merges ModelCls missing_ids ;;
  missing_ids <- (match merged with
                  | _ :: _ => apply_merges type ModelCls merged missing_ids
                  | [] => ret missing_ids
                  end) ;;
  purge_gate ModelCls missing_ids purge ;;;
  ret loaded.

(** ** [create_parties] and [to_database] (to_database.py, lines 388-445) *)

(** The [parties] of settings.yml, the abbreviations of
    [get_all_abbreviations()], [get_jurisdiction_id] and the parsed files of a
    state's data directory. *)
Variable parties : list value.
Variable get_all_abbreviations : list string.
Variable get_jurisdiction_id : string → value.
Variable person_files : string → list entry.
Variable committee_files : string → list entry.

Definition create_parties : M unit :=
  for_each parties (λ party,
    org <- get_or_create Organization
             {[ "name" := party; "classification" := VStr "party" ]} ;;
    ret tt).

Definition to_database (fuel : nat) (abbreviations : list string) (purge safe : bool)
    : M unit :=
  create_parties ;;;
  let abbreviations :=
    match abbreviations with
    | [] => get_all_abbreviations
    | _ => abbreviations
    end in
  for_each abbreviations (λ abbr,
    let jurisdiction_id := get_jurisdiction_id abbr in
    try_except
      (atomic
         (create_juris_orgs_posts jurisdiction_id ;;;
          load_directory fuel (person_files abbr) "person" jurisdiction_id purge ;;;
          load_directory fuel (committee_files abbr) "organization" jurisdiction_id purge ;;;
          if safe then raise CancelTransaction else ret tt))
      (except CancelTransaction (raise (SystemExit 1)))).

(** The exit status of the process: [sys.exit(n)] gives [n], an exception
    that nothing catches gives 1, a normal return gives 0. *)
Definition exit_status (r : result unit) : option nat :=
  match r with
  | Ok _ => Some 0
  | Raise (SystemExit n) => Some n
  | Raise _ => Some 1
  | OutOfFuel => None
  end.

End Loaders.

(** * Specification vocabulary *)

(** The desired item names at least one field. *)
Definition names_a_field (obj : row) : bool := negb (bool_decide (obj = ∅)).

(** A stored row is unmatched when the [exclude] of no desired item drops
    it: an item drops the rows it matches, if it names a field. *)
Definition unmatched (objects : list row) (r : row) : bool :=
  forallb (λ obj, negb (names_a_field obj && matches obj r)) objects.

(** The read view of a call. *)
Definition read_view (person : instance) (fieldname : string)
    (read_manager : option queryset) : queryset :=
  default (all (getattr person fieldname)) read_manager.

(** The test of lines 44-58. *)
Definition differs (s : store) (q : queryset) (objects : list row) : bool :=
  bool_decide (qs_count s q ≠ length objects)
  || existsb (unmatched objects) (qs_rows s q).

(** The writes of lines 61-67. *)
Definition create_all (m : manager) (objects : list row) (s : store) : store :=
  foldl (λ s obj, insert_row (rm_table m) (new_row (<[rm_fk m := rm_owner m]> obj) s) s)
        s objects.

Definition replace_all (person : instance) (m : manager) (q : queryset)
    (objects : list row) (s : store) : store :=
  save_row (i_model person) (i_fields person)
    (create_all m objects
       (if bool_decide (qs_count s q ≠ 0) then qs_delete q s else s)).

(** The stored items under a read view are in step with the desired list:
    the counts are equal and every stored item is matched, field for field,
    by some desired item that names a field. *)
Definition in_sync (s : store) (q : queryset) (objects : list row) : Prop :=
  qs_count s q = length objects ∧
  ∀ r, r ∈ qs_rows s q → ∃ obj, obj ∈ objects ∧ obj ≠ ∅ ∧ matches obj r = true.

(** The change the reconciliation looks for: the counts differ, or some
    stored item is matched by no desired item that names a field. *)
Definition changed (s : store) (q : queryset) (objects : list row) : Prop :=
  qs_count s q ≠ length objects ∨
  ∃ r, r ∈ qs_rows s q ∧ ∀ obj, obj ∈ objects → obj = ∅ ∨ matches obj r = false.

(** The reading of the match test that takes an item with no field for a
    match of every stored item. *)
Definition matched_by_any (s : store) (q : queryset) (objects : list row) : Prop :=
  qs_count s q = length objects ∧
  ∀ r, r ∈ qs_rows s q → ∃ obj, obj ∈ objects ∧ matches obj r = true.

(** The row [manager.create] makes of a desired item: it belongs to the
    owner and carries every field of the item. *)
Definition created_from (m : manager) (obj r : row) : Prop :=
  r !! rm_fk m = Some (rm_owner m) ∧
  ∀ k v, k ≠ rm_fk m → obj !! k = Some v → r !! k = Some v.

(** The lookup keywords [{k: data[k] for k in lookup_keys}]. *)
Definition kwargs_of (data : row) (lookup_keys : list string) : row :=
  foldr (λ k kwargs, match data !! k with
                     | Some v => <[k := v]> kwargs
                     | None => kwargs
                     end) ∅ lookup_keys.

(** The rows of a model class that match the lookup keywords. *)
Definition lookup_rows (s : store) (ModelCls : string) (kwargs : row) : list row :=
  List.filter (matches kwargs) (table s ModelCls).

(** Some field of the mapping differs from the stored one. *)
Definition field_differs (data r : row) : Prop :=
  ∃ field v, data !! field = Some v ∧ r !! field ≠ Some v.

(** Every field of the mapping is an attribute of the instance. *)
Definition has_attributes (data r : row) : Prop :=
  ∀ field, is_Some (data !! field) → is_Some (r !! field).

(** The input of [load_person] is identical to the stored state: the person
    is stored under its id with the fields of the record, and every
    sub-collection is in step with the list the record gives for it. *)
Definition person_in_step (legacy_districts : value → gmap string (list value))
    (data : document) (st : state) : Prop :=
  ∃ fields p memberships st1,
    person_fields data st = (Ok fields, st) ∧
    lookup_rows (db st) Person (kwargs_of fields ["id"]) = [p] ∧
    ¬ field_differs fields p ∧
    in_sync (db st) (all (related Person p "other_names")) (get_list data "other_names") ∧
    in_sync (db st) (all (related Person p "links")) (get_list data "links") ∧
    in_sync (db st) (all (related Person p "sources")) (get_list data "sources") ∧
    in_sync (db st) (all (related Person p "identifiers")) (person_identifiers data) ∧
    in_sync (db st) (all (related Person p "contact_details"))
      (person_contact_details data) ∧
    person_memberships legacy_districts data st = (Ok memberships, st1) ∧
    in_sync (db st) (non_committee (Instance Person p)) memberships.

(** The same for [load_org]. *)
Definition org_in_step (data : document) (st : state) : Prop :=
  ∃ parent fields o memberships,
    org_parent data st = (Ok parent, st) ∧
    org_fields data parent st = (Ok fields, st) ∧
    lookup_rows (db st) Organization (kwargs_of fields ["id"]) = [o] ∧
    ¬ field_differs fields o ∧
    in_sync (db st) (all (related Organization o "links")) (get_list data "links") ∧
    in_sync (db st) (all (related Organization o "sources")) (get_list data "sources") ∧
    org_memberships (get_list data "memberships") st = (Ok memberships, st) ∧
    in_sync (db st) (all (related Organization o "memberships")) memberships.

(** A computation that does not write to the database. *)
Definition db_pure {A} (m : M A) : Prop := ∀ st, db (m st).2 = db st.

(** [person_in_step], computed. *)
Definition person_in_stepb (legacy_districts : value → gmap string (list value))
    (data : document) (st : state) : bool :=
  match person_fields data st with
  | (Ok fields, _) =>
      match lookup_rows (db st) Person (kwargs_of fields ["id"]) with
      | [p] =>
          match set_differing fields p with Ok (_, false) => true | _ => false end
          && negb (differs (db st) (all (related Person p "other_names"))
                     (get_list data "other_names"))
          && negb (differs (db st) (all (related Person p "links"))
                     (get_list data "links"))
          && negb (differs (db st) (all (related Person p "sources"))
                     (get_list data "sources"))
          && negb (differs (db st) (all (related Person p "identifiers"))
                     (person_identifiers data))
          && negb (differs (db st) (all (related Person p "contact_details"))
                     (person_contact_details data))
          && match person_memberships legacy_districts data st with
             | (Ok memberships, _) =>
                 negb (differs (db st) (non_committee (Instance Person p)) memberships)
             | _ => false
             end
      | _ => false
      end
  | _ => false
  end.

(** The parent reference and the id of a record of the batch. *)
Definition parent_of (e : entry) : option value := scalars e.1 !! "parent".
Definition id_of (e : entry) : option value := scalars e.1 !! "id".

(** A batch that cannot be fully ordered: some records of it ([stuck]) each
    have an organization id for parent that no record outside [stuck]
    carries.  Two records that name each other as parent are such a set, and
    so is a record whose parent id is not in the batch. *)
Definition unorderable (batch : list entry) (stuck : entry → bool) : Prop :=
  (∃ e, e ∈ batch ∧ stuck e = true) ∧
  ∀ e, e ∈ batch → stuck e = true →
    ∃ s, parent_of e = Some (VStr s) ∧
         String.prefix "ocd-organization" s = true ∧
         ∀ e', e' ∈ batch → stuck e' = false → id_of e' ≠ Some (VStr s).

(** Every record has an id and a string for parent. *)
Definition well_formed_batch (batch : list entry) : Prop :=
  ∀ e, e ∈ batch → is_Some (id_of e) ∧ ∃ s, parent_of e = Some (VStr s).

(** What holds of the loop variables on a batch that cannot be ordered: a
    stuck record is still to be placed, what is still to be placed is of the
    batch, and only ids of records that are not stuck have been seen. *)
Definition stuck_invariant (batch : list entry) (stuck : entry → bool)
    (st : sorting) : Prop :=
  (∃ e0, e0 ∈ orgs st ∧ stuck e0 = true) ∧
  (∀ e, e ∈ orgs st → e ∈ batch) ∧
  (∀ v, v ∈ seen st → ∃ e', e' ∈ batch ∧ stuck e' = false ∧ id_of e' = Some v).

(** The totals before the first file. *)
Definition no_totals : totals := {| ids := []; created_count := 0; updated_count := 0 |}.

(** A computation whose effect on the database stays within a relation. *)
Definition respects (R : relation store) {A} (m : M A) : Prop :=
  ∀ st, R (db st) (db (m st).2).

(** The table [tbl] is left as it is. *)
Definition keeps (tbl : string) : relation store :=
  λ s s', table s' tbl = table s tbl.

(** A membership of the person [person_id] in an organization classified as
    a committee. *)
Definition committee_membership (s : store) (person_id : value) (m : row) : bool :=
  bool_decide (m !! "person" = Some person_id)
  && related_matches s "organization" Organization
       {[ "classification" := VStr "committee" ]} m.

(** The organizations are as they were, and the committee memberships of
    every person are still stored, unchanged and in place; memberships may
    have been added after them. *)
Definition committee_frame : relation store :=
  λ s s',
    table s' Organization = table s Organization ∧
    ∀ person_id,
      List.filter (committee_membership s person_id) (table s Membership)
      `prefix_of` List.filter (committee_membership s person_id) (table s' Membership).

(** [load_directory] up to the gate of lines 372-380: the files are loaded
    and the merges resolved; the result is the totals, the model class and
    the ids that are still missing. *)
Definition merge_resolution (legacy_districts : value → gmap string (list value))
    (fuel : nat) (files : list entry) (type : string) (jurisdiction_id : value)
    : M (totals * string * list value) :=
  setup <- (if bool_decide (type = "person") then
              existing_ids <- read (person_ids jurisdiction_id) ;;
              ret (existing_ids, Person, load_person legacy_districts)
            else if bool_decide (type = "organization") then
              existing_ids <- read (committee_ids jurisdiction_id) ;;
              ret (existing_ids, Organization, load_org)
            else raise (ValueError type)) ;;
  all_data <- (if bool_decide (type = "organization")
               then lift_result (sort_organizations fuel files)
               else ret files) ;;
  loaded <- load_all setup.2 all_data no_totals ;;
  merged <- find_merges setup.1.2 (list_difference setup.1.1 (ids loaded)) ;;
  missing_ids <- (match merged with
                  | _ :: _ =>
                      apply_merges type setup.1.2 merged
                        (list_difference setup.1.1 (ids loaded))
                  | [] => ret (list_difference setup.1.1 (ids loaded))
                  end) ;;
  ret (loaded, setup.1.2, missing_ids).

(** The row carries one of the ids. *)
Definition has_id_in (ids : list value) (r : row) : bool :=
  match r !! "id" with
  | Some v => bool_decide (v ∈ ids)
  | None => false
  end.

(** The ids of the rows of a table, in order. *)
Definition row_ids (s : store) (tbl : string) : list (option value) :=
  List.map (λ r : row, r !! "id") (table s tbl).

(** The primary key of a table: every row has an id, no two rows the same. *)
Definition primary_key (s : store) (tbl : string) : Prop :=
  NoDup (row_ids s tbl) ∧
  ∀ r, r ∈ table s tbl → is_Some (r !! "id").

(** The ids of a table grow: the ids that are stored stay stored, and stay
    distinct if they were. *)
Definition grows (tbl : string) : relation store :=
  λ s s',
    (NoDup (row_ids s tbl) → NoDup (row_ids s' tbl)) ∧
    ∀ x, x ∈ row_ids s tbl → x ∈ row_ids s' tbl.

(** Every id of the list names a stored row, and no two rows of the table
    have the same id. *)
Definition all_stored (s : store) (tbl : string) (ids : list value) : Prop :=
  NoDup (row_ids s tbl) ∧ ∀ id, id ∈ ids → Some id ∈ row_ids s tbl.

(** A computation that leaves the whole state as it is. *)
Definition state_pure {A} (m : M A) : Prop := ∀ st, (m st).2 = st.

(** [primary_key], computed. *)
Definition primary_keyb (s : store) (tbl : string) : bool :=
  bool_decide (NoDup (row_ids s tbl))
  && forallb (λ r : row, bool_decide (is_Some (r !! "id"))) (table s tbl).

(** The cache of [cached_lookup] agrees with the database: a cached
    organization is stored and matches the keywords it is cached under. *)
Definition cache_coherent (st : state) : Prop :=
  ∀ kwargs r, ((Organization, kwargs), r) ∈ cache st →
    r ∈ table (db st) Organization ∧ matches kwargs r = true.

(** A computation that leaves the cache as it is. *)
Definition cache_pure {A} (m : M A) : Prop := ∀ st, cache (m st).2 = cache st.

(** From a state in [P], the computation returns in [Q] or stops in [E]. *)
Definition hoare {A} (P : state → Prop) (m : M A) (Q : A → state → Prop)
    (E : state → Prop) : Prop :=
  ∀ st, P st →
    match m st with
    | (Ok a, st') => Q a st'
    | (_, st') => E st'
    end.

(** While memberships are resolved the database is [s] and the cache agrees
    with it. *)
Definition resolving (s : store) (st : state) : Prop :=
  db st = s ∧ cache_coherent st.

(** A membership of an organization that is stored and is not a committee. *)
Definition of_non_committee (s : store) (m : row) : Prop :=
  ∃ org c, org ∈ table s Organization ∧
           m !! "organization" = Some (pk org) ∧
           org !! "classification" = Some (VStr c) ∧ c ≠ "committee".

(** What [load_person] maintains from the state [st0] on, when the cache
    agrees with the database: the organizations and the committee
    memberships of every person are exactly those of [st0]. *)
Definition committee_invariant (st0 st : state) : Prop :=
  cache_coherent st ∧
  table (db st) Organization = table (db st0) Organization ∧
  ∀ person_id,
    List.filter (committee_membership (db st0) person_id) (table (db st) Membership)
    = List.filter (committee_membership (db st0) person_id) (table (db st0) Membership).

(** [cache_coherent], computed. *)
Definition cache_coherentb (st : state) : bool :=
  forallb (λ e : (string * row) * row,
             negb (bool_decide (e.1.1 = Organization))
             || (bool_decide (e.2 ∈ table (db st) Organization) && matches e.1.2 e.2))
          (cache st).

(** The states [to_database] goes through (lines 420-423). *)
Definition effective_abbreviations (get_all_abbreviations abbreviations : list string)
    : list string :=
  match abbreviations with
  | [] => get_all_abbreviations
  | _ => abbreviations
  end.

(** The body of the transaction of one state (lines 438-443). *)
Definition state_transaction (legacy_districts : value → gmap string (list value))
    (metadata_lookup : value → state_metadata) (get_jurisdiction_id : string → value)
    (person_files committee_files : string → list entry)
    (fuel : nat) (purge safe : bool) (abbr : string) : M unit :=
  create_juris_orgs_posts metadata_lookup (get_jurisdiction_id abbr) ;;;
  load_directory legacy_districts fuel (person_files abbr) "person"
    (get_jurisdiction_id abbr) purge ;;;
  load_directory legacy_districts fuel (committee_files abbr) "organization"
    (get_jurisdiction_id abbr) purge ;;;
  if safe then raise CancelTransaction else ret tt.

(** One state of the loop of [to_database] (lines 436-445). *)
Definition sync_state (legacy_districts : value → gmap string (list value))
    (metadata_lookup : value → state_metadata) (get_jurisdiction_id : string → value)
    (person_files committee_files : string → list entry)
    (fuel : nat) (purge safe : bool) (abbr : string) : M unit :=
  try_except
    (atomic (state_transaction legacy_districts metadata_lookup get_jurisdiction_id
               person_files committee_files fuel purge safe abbr))
    (except CancelTransaction (raise (SystemExit 1))).

(** The files [to_database] hands to [load_directory] for a type. *)
Definition directory_files (person_files committee_files : string → list entry)
    (type abbr : string) : list entry :=
  if bool_decide (type = "person") then person_files abbr else committee_files abbr.

(** The steps of the transaction of a state that come before the call of
    [load_directory] for [type]: line 438, and line 439 when the type is
    organization. *)
Definition steps_before (legacy_districts : value → gmap string (list value))
    (metadata_lookup : value → state_metadata) (get_jurisdiction_id : string → value)
    (person_files : string → list entry) (fuel : nat) (purge : bool)
    (type abbr : string) : M unit :=
  create_juris_orgs_posts metadata_lookup (get_jurisdiction_id abbr) ;;;
  if bool_decide (type = "person") then ret tt
  else
    load_directory legacy_districts fuel (person_files abbr) "person"
      (get_jurisdiction_id abbr) purge ;;;
    ret tt.

(** The steps that come after it: line 440 when the type is person, and
    lines 441-443. *)
Definition steps_after (legacy_districts : value → gmap string (list value))
    (get_jurisdiction_id : string → value) (committee_files : string → list entry)
    (fuel : nat) (purge safe : bool) (type abbr : string) : M unit :=
  (if bool_decide (type = "person") then
     load_directory legacy_districts fuel (committee_files abbr) "organization"
       (get_jurisdiction_id abbr) purge ;;;
     ret tt
   else ret tt) ;;;
  if safe then raise CancelTransaction else ret tt.

(** * Example data *)

Definition ex_empty : store :=
  {| tables := ∅; next_id := 0; clock := 0; writes := [] |}.

Definition ex_jane : row := {[ "id" := VStr "p1"; "name" := VStr "Jane Smith" ]}.

Definition ex_link (url : string) : row := {[ "url" := VStr url ]}.

(** Jane with the link [a] stored twice. *)
Definition ex_two_links : state :=
  {| db := {| tables := {[ "person" := [ex_jane];
                           "person_links" :=
                             [ <["person" := VStr "p1"]> (ex_link "a");
                               <["person" := VStr "p1"]> (ex_link "a") ] ]};
              next_id := 2; clock := 1; writes := [] |};
     cache := [] |}.

(** Jane with the one link [a] stored. *)
Definition ex_one_link : state :=
  {| db := {| tables := {[ "person" := [ex_jane];
                           "person_links" :=
                             [ <["person" := VStr "p1"]> (ex_link "a") ] ]};
              next_id := 1; clock := 1; writes := [] |};
     cache := [] |}.

(** Two persons of the same name. *)
Definition ex_namesakes : state :=
  {| db := {| tables := {[ "person" := [ex_jane; <["id" := VStr "p9"]> ex_jane] ]};
              next_id := 0; clock := 1; writes := [] |};
     cache := [] |}.

(** Jane under a new name. *)
Definition ex_jane_doe : row := <["name" := VStr "Jane Doe"]> ex_jane.

(** No legacy districts. *)
Definition ex_no_legacy : value → gmap string (list value) := λ _, ∅.

(** The file of Jane, with two links. *)
Definition ex_jane_doc : document :=
  {| scalars := ex_jane;
     sequences := {[ "links" := [ex_link "a"; ex_link "b"] ]};
     mappings := ∅ |}.

(** The state after Jane's file has been loaded into an empty database. *)
Definition ex_jane_loaded : state :=
  (load_person ex_no_legacy ex_jane_doc {| db := ex_empty; cache := [] |}).2.

(** The file of Jane with one link that names no field, and the state after
    it has been loaded into an empty database. *)
Definition ex_blank_link_doc : document :=
  {| scalars := ex_jane;
     sequences := {[ "links" := [(∅ : row)] ]};
     mappings := ∅ |}.

Definition ex_blank_link_loaded : state :=
  (load_person ex_no_legacy ex_blank_link_doc {| db := ex_empty; cache := [] |}).2.

(** The row Jane is stored as: every field of a person, the optional ones
    empty. *)
Definition ex_jane_stored : row :=
  {[ "id" := VStr "p1"; "name" := VStr "Jane Smith"; "given_name" := VStr "";
     "family_name" := VStr ""; "gender" := VStr ""; "biography" := VStr "";
     "birth_date" := VStr ""; "death_date" := VStr ""; "image" := VStr "";
     "extras" := VMap ∅ ]}.

(** The organizations of the tests' [setup()]: a lower chamber with three
    posts, the executive, two parties. *)
Definition ex_nc : value := VStr "ocd-jurisdiction/country:us/state:nc/government".

Definition ex_setup : state :=
  {| db :=
       {| tables :=
            {[ Organization :=
                 [ {[ "id" := VAuto 0; "name" := VStr "House";
                      "classification" := VStr "lower"; "jurisdiction_id" := ex_nc ]};
                   {[ "id" := VAuto 1; "name" := VStr "Executive";
                      "classification" := VStr "executive";
                      "jurisdiction_id" := ex_nc ]};
                   {[ "id" := VAuto 2; "name" := VStr "Democratic";
                      "classification" := VStr "party" ]};
                   {[ "id" := VAuto 3; "name" := VStr "Republican";
                      "classification" := VStr "party" ]} ];
               Post :=
                 [ {[ "id" := VAuto 4; "organization" := VAuto 0; "label" := VInt 1 ]};
                   {[ "id" := VAuto 5; "organization" := VAuto 0; "label" := VInt 2 ]};
                   {[ "id" := VAuto 6; "organization" := VAuto 0; "label" := VInt 3 ]} ] ]};
          next_id := 7; clock := 4; writes := [] |};
     cache := [] |}.

(** The record of test_person_governor_role. *)
Definition ex_governor_role : row :=
  {[ "type" := VStr "governor"; "jurisdiction" := ex_nc ]}.

Definition ex_governor_doc : document :=
  {| scalars := ex_jane;
     sequences := {[ "roles" := [ex_governor_role] ]};
     mappings := ∅ |}.

(** Two committees that name each other as parent. *)
Definition ex_committee (id parent : string) : entry :=
  ({| scalars := {[ "id" := VStr id; "name" := VStr "Committee";
                    "parent" := VStr parent; "jurisdiction" := ex_nc;
                    "classification" := VStr "committee" ]};
      sequences := ∅; mappings := ∅ |}, id +:+ ".yml").

Definition ex_cycle : list entry :=
  [ ex_committee "ocd-organization/a" "ocd-organization/b";
    ex_committee "ocd-organization/b" "ocd-organization/a" ].

(** A committee [old] is stored; the batch holds the committee [new], which
    carries the id of [old] as its openstates identifier. *)
Definition ex_old_committee : row :=
  {[ "id" := VStr "ocd-organization/old"; "name" := VStr "Finance";
     "classification" := VStr "committee"; "jurisdiction_id" := ex_nc ]}.

Definition ex_new_committee : entry :=
  ({| scalars := {[ "id" := VStr "ocd-organization/new"; "name" := VStr "Finance";
                    "parent" := VStr "lower"; "jurisdiction" := ex_nc;
                    "classification" := VStr "committee" ]};
      sequences := ∅; mappings := ∅ |}, "new.yml").

Definition ex_merge_store : state :=
  {| db := insert_row "organization_identifiers"
             {[ "organization" := VStr "ocd-organization/new";
                "scheme" := VStr "openstates";
                "identifier" := VStr "ocd-organization/old" ]}
             (insert_row Organization ex_old_committee (db ex_setup));
     cache := [] |}.

(** The environment of a run: one state with no chamber, one party, one
    person file and no committee file. *)
Definition ex_metadata : value → state_metadata :=
  λ _, {| state_jurisdiction_id := ex_nc; state_name := VStr "North Carolina";
          state_url := VStr "https://nc.gov";
          state_division_id := VStr "ocd-division/country:us/state:nc";
          chambers := [] |}.

Definition ex_person_files : string → list entry := λ _, [(ex_jane_doc, "jane.yml")].
Definition ex_committee_files : string → list entry := λ _, [].

Definition ex_to_database (purge safe : bool) : result unit * state :=
  to_database ex_no_legacy ex_metadata [VStr "Democratic"] ["nc"] (λ _, ex_nc)
    ex_person_files ex_committee_files 1 [] purge safe
    {| db := ex_empty; cache := [] |}.

(** Bob sits in the lower chamber and has no file in the batch. *)
Definition ex_bob : row := {[ "id" := VStr "p2"; "name" := VStr "Bob Jones" ]}.

Definition ex_bob_stored : state :=
  {| db := insert_row Membership
             {[ "id" := VAuto 7; "person" := VStr "p2"; "organization" := VAuto 0;
                "post" := VAuto 4; "start_date" := VStr ""; "end_date" := VStr "" ]}
             (insert_row Person ex_bob (db ex_setup));
     cache := [] |}.

(** The run of [to_database] on that store, with Jane's file for batch. *)
Definition ex_gate_run (purge : bool) : result unit * state :=
  to_database ex_no_legacy ex_metadata [VStr "Democratic"] ["nc"] (λ _, ex_nc)
    ex_person_files ex_committee_files 1 [] purge false ex_bob_stored.

(** Jane is stored with a membership of the Democratic party and one of the
    Finance committee; her file names the Republican party. *)
Definition ex_finance : row :=
  {[ "id" := VStr "ocd-organization/finance"; "name" := VStr "Finance";
     "classification" := VStr "committee"; "jurisdiction_id" := ex_nc;
     "parent" := VAuto 0 ]}.

Definition ex_committee_member : state :=
  {| db :=
       insert_row Membership
         {[ "id" := VAuto 9; "person" := VStr "p1";
            "organization" := VStr "ocd-organization/finance";
            "person_name" := VStr "Jane Smith"; "role" := VStr "member";
            "start_date" := VStr ""; "end_date" := VStr "" ]}
         (insert_row Membership
            {[ "id" := VAuto 8; "person" := VStr "p1"; "organization" := VAuto 2;
               "start_date" := VStr ""; "end_date" := VStr "" ]}
            (insert_row Person ex_jane_stored
               (insert_row Organization ex_finance (db ex_setup))));
     cache := [] |}.

Definition ex_jane_republican : document :=
  {| scalars := ex_jane;
     sequences := {[ "party" := [ ({[ "name" := VStr "Republican" ]} : row) ] ]};
     mappings := ∅ |}.

(** * Properties *)

(** ** The monad *)

Lemma state_eta (st : state) : {| db := db st; cache := cache st |} = st.
Proof. by destruct st. Qed.

Lemma bind_Ok {A B} (m : M A) (k : A → M B) st a st' :
  m st = (Ok a, st') → bind m k st = k a st'.
Proof. unfold bind. by intros ->. Qed.

Lemma bind_Raise {A B} (m : M A) (k : A → M B) st e st' :
  m st = (Raise e, st') → bind m k st = (Raise e, st').
Proof. unfold bind. by intros ->. Qed.

Lemma bind_Ok_inv {A B} (m : M A) (k : A → M B) st b st' :
  bind m k st = (Ok b, st') →
  ∃ a st1, m st = (Ok a, st1) ∧ k a st1 = (Ok b, st').
Proof.
  unfold bind. destruct (m st) as [[a|e|] st1]; [eauto | done | done].
Qed.

Lemma for_each_write {A} (f : A → store → store) (xs : list A) st :
  for_each xs (λ x, write_db (f x)) st
  = (Ok tt, {| db := foldl (λ s x, f x s) (db st) xs; cache := cache st |}).
Proof.
  revert st. induction xs as [|x xs IH]; intros st; simpl.
  - by rewrite state_eta.
  - unfold bind at 1, write_db at 1. by rewrite IH.
Qed.

(** ** Query sets *)

Lemma matches_true (kw r : row) :
  matches kw r = true ↔ ∀ k v, kw !! k = Some v → r !! k = Some v.
Proof. unfold matches. by rewrite bool_decide_eq_true. Qed.

Lemma matches_subseteq (kw r : row) : matches kw r = true ↔ kw ⊆ r.
Proof. rewrite matches_true. symmetry. apply map_subseteq_spec. Qed.

Lemma names_a_field_true (obj : row) : names_a_field obj = true ↔ obj ≠ ∅.
Proof. unfold names_a_field. by rewrite negb_true_iff, bool_decide_eq_false. Qed.

(** [.exclude] with the keywords [kw], as a condition on a row. *)
Lemma sat_exclude s r (kw : row) :
  sat s r (Exclude kw) = negb (names_a_field kw && matches kw r).
Proof. unfold names_a_field. simpl. by destruct (bool_decide (kw = ∅)). Qed.

Lemma unmatched_false (objects : list row) (r : row) :
  unmatched objects r = false
  ↔ ∃ obj, obj ∈ objects ∧ obj ≠ ∅ ∧ matches obj r = true.
Proof.
  unfold unmatched. induction objects as [|o os IH]; simpl.
  - split; [done | intros (? & H & _); by apply elem_of_nil in H].
  - rewrite andb_false_iff, IH, negb_false_iff, andb_true_iff, names_a_field_true.
    split.
    + intros [[H1 H2] | (obj & Hin & H)]; [exists o | exists obj];
        (split; [by constructor | done]).
    + intros (obj & Hin & H). apply elem_of_cons in Hin as [-> | Hin]; eauto.
Qed.

Lemma excludes_table (q : queryset) (objects : list row) :
  qs_table (foldl (λ qs obj, qs_exclude obj qs) q objects) = qs_table q.
Proof. revert q. induction objects as [|o os IH]; intros q; simpl; [done | by rewrite IH]. Qed.

Lemma excludes_visible s (q : queryset) (objects : list row) r :
  visible s (foldl (λ qs obj, qs_exclude obj qs) q objects) r
  = visible s q r && unmatched objects r.
Proof.
  revert q. induction objects as [|o os IH]; intros q; simpl.
  - by rewrite andb_true_r.
  - rewrite IH. unfold visible, qs_exclude. cbn [qs_conds].
    rewrite forallb_app. cbn [forallb]. by rewrite sat_exclude, andb_true_r, andb_assoc.
Qed.

Lemma excludes_rows s (q : queryset) (objects : list row) :
  qs_rows s (foldl (λ qs obj, qs_exclude obj qs) q objects)
  = List.filter (unmatched objects) (qs_rows s q).
Proof.
  unfold qs_rows. rewrite excludes_table.
  induction (table s (qs_table q)) as [|r rs IH]; simpl; [done|].
  rewrite excludes_visible.
  destruct (visible s q r); simpl; [|done].
  destruct (unmatched objects r); by rewrite IH.
Qed.

Lemma excludes_exists s (q : queryset) (objects : list row) :
  qs_exists s (foldl (λ qs obj, qs_exclude obj qs) q objects)
  = existsb (unmatched objects) (qs_rows s q).
Proof.
  unfold qs_exists. rewrite excludes_rows.
  induction (qs_rows s q) as [|r rs IH]; simpl; [done|].
  destruct (unmatched objects r); simpl; [done | apply IH].
Qed.

(** ** [update_subobjects] as a function of the store *)

Lemma update_subobjects_run person fieldname objects read_manager st :
  update_subobjects person fieldname objects read_manager st
  = if differs (db st) (read_view person fieldname read_manager) objects
    then (Ok true,
          {| db := replace_all person (getattr person fieldname)
                     (read_view person fieldname read_manager) objects (db st);
             cache := cache st |})
    else (Ok false, st).
Proof.
  unfold update_subobjects, differs, replace_all, create_all, read_view.
  set (m := getattr person fieldname).
  set (q := default (all m) read_manager).
  unfold bind at 1, read at 1.
  destruct (bool_decide (qs_count (db st) q ≠ length objects)) eqn:Hc; simpl.
  - unfold bind at 1, ret at 1.
    destruct (bool_decide (qs_count (db st) q ≠ 0)).
    + unfold bind at 1, write_db at 1.
      unfold manager_create. unfold bind at 1. rewrite for_each_write.
      unfold bind, save, write_db, ret. simpl. done.
    + unfold bind at 1, ret at 1.
      unfold manager_create. unfold bind at 1. rewrite for_each_write.
      unfold bind, save, write_db, ret. simpl. done.
  - unfold bind at 1. unfold bind at 1, read at 1, ret at 1.
    rewrite excludes_exists.
    destruct (existsb (unmatched objects) (qs_rows (db st) q)); simpl; [|done].
    destruct (bool_decide (qs_count (db st) q ≠ 0)).
    + unfold bind at 1, write_db at 1.
      unfold manager_create. unfold bind at 1. rewrite for_each_write.
      unfold bind, save, write_db, ret. simpl. done.
    + unfold bind at 1, ret at 1.
      unfold manager_create. unfold bind at 1. rewrite for_each_write.
      unfold bind, save, write_db, ret. simpl. done.
Qed.

Lemma differs_false s q objects : differs s q objects = false ↔ in_sync s q objects.
Proof.
  unfold differs, in_sync. rewrite orb_false_iff, bool_decide_eq_false.
  split.
  - intros [Hc He]. split; [by destruct (decide (qs_count s q = length objects)) |].
    intros r Hr. apply unmatched_false.
    destruct (unmatched objects r) eqn:Hu; [|done].
    assert (existsb (unmatched objects) (qs_rows s q) = true) as Ht; [|congruence].
    apply existsb_exists. exists r. split; [by apply list_elem_of_In | done].
  - intros [Hc Hm]. split; [by intros [] |].
    destruct (existsb (unmatched objects) (qs_rows s q)) eqn:He; [|done].
    apply existsb_exists in He as (r & Hr & Hu).
    apply list_elem_of_In, Hm, unmatched_false in Hr. congruence.
Qed.

Lemma unmatched_true (objects : list row) (r : row) :
  unmatched objects r = true
  ↔ ∀ obj, obj ∈ objects → obj = ∅ ∨ matches obj r = false.
Proof.
  split.
  - intros Hu obj Hin. destruct (decide (obj = ∅)) as [|Hne]; [by left | right].
    destruct (matches obj r) eqn:Hm; [|done].
    assert (unmatched objects r = false); [|congruence].
    apply unmatched_false. eauto.
  - intros H. destruct (unmatched objects r) eqn:Hu; [done|].
    apply unmatched_false in Hu as (obj & Hin & Hne & Hm).
    destruct (H _ Hin); congruence.
Qed.

Lemma differs_true s q objects : differs s q objects = true ↔ changed s q objects.
Proof.
  unfold differs, changed. rewrite orb_true_iff, bool_decide_eq_true.
  apply or_iff_compat_l. rewrite existsb_exists. split.
  - intros (r & Hr & Hu). exists r. split; [by apply list_elem_of_In|].
    by apply unmatched_true.
  - intros (r & Hr & Hu). exists r. split; [by apply list_elem_of_In|].
    by apply unmatched_true.
Qed.

(** Nothing to do: the call returns [False] and leaves the state as it is. *)
Lemma update_subobjects_in_sync person fieldname objects read_manager st :
  in_sync (db st) (read_view person fieldname read_manager) objects →
  update_subobjects person fieldname objects read_manager st = (Ok false, st).
Proof.
  intros H. rewrite update_subobjects_run.
  apply differs_false in H. by rewrite H.
Qed.




(** ** Tables under the writes *)

Lemma table_set_table tbl rs w s tbl' :
  table (set_table tbl rs w s) tbl' = if decide (tbl = tbl') then rs else table s tbl'.
Proof.
  unfold table, set_table. simpl. rewrite lookup_insert.
  by destruct (decide (tbl = tbl')).
Qed.

Lemma table_insert_row tbl r s tbl' :
  table (insert_row tbl r s) tbl'
  = if decide (tbl = tbl') then table s tbl ++ [r] else table s tbl'.
Proof.
  unfold table, insert_row. simpl. rewrite lookup_insert.
  by destruct (decide (tbl = tbl')).
Qed.

Lemma table_tick s tbl : table (tick s) tbl = table s tbl.
Proof. done. Qed.

Lemma table_qs_delete q s tbl :
  table (qs_delete q s) tbl
  = if decide (qs_table q = tbl)
    then List.filter (λ r, negb (visible s q r)) (table s (qs_table q))
    else table s tbl.
Proof. unfold qs_delete. apply table_set_table. Qed.

Lemma table_save_row_ne tbl r s tbl' :
  tbl ≠ tbl' → table (save_row tbl r s) tbl' = table s tbl'.
Proof.
  intros Hne. unfold save_row. rewrite table_tick, table_set_table.
  by destruct (decide (tbl = tbl')).
Qed.

Lemma clock_create_all m objects s : clock (create_all m objects s) = clock s.
Proof.
  unfold create_all. revert s.
  induction objects as [|o os IH]; intros s; simpl; [done|]. by rewrite IH.
Qed.

Lemma created_from_new_row m obj s :
  created_from m obj (new_row (<[rm_fk m := rm_owner m]> obj) s).
Proof.
  unfold created_from, new_row.
  destruct (<[rm_fk m := rm_owner m]> obj !! "id") eqn:Hid.
  - split; [apply lookup_insert_eq|].
    intros k w Hk Hw. by rewrite lookup_insert_ne.
  - assert (rm_fk m ≠ "id") as Hfk.
    { intros Heq. rewrite Heq, lookup_insert_eq in Hid. done. }
    split.
    + rewrite lookup_insert_ne by done. apply lookup_insert_eq.
    + intros k v Hk Hv.
      assert (k ≠ "id") as Hk'.
      { intros ->. rewrite lookup_insert_ne in Hid by done. congruence. }
      rewrite !lookup_insert_ne by done. done.
Qed.

Lemma table_create_all m objects s :
  ∃ created,
    table (create_all m objects s) (rm_table m) = table s (rm_table m) ++ created ∧
    Forall2 (created_from m) objects created.
Proof.
  unfold create_all. revert s.
  induction objects as [|o os IH]; intros s; simpl.
  - exists []. split; [by rewrite app_nil_r | constructor].
  - destruct (IH (insert_row (rm_table m) (new_row (<[rm_fk m:=rm_owner m]> o) s) s))
      as (created & Ht & Hc).
    exists (new_row (<[rm_fk m:=rm_owner m]> o) s :: created). split.
    + rewrite Ht, table_insert_row. destruct (decide (rm_table m = rm_table m)); [|done].
      by rewrite <- app_assoc.
    + constructor; [apply created_from_new_row | done].
Qed.

Lemma table_create_all_ne m objects s tbl :
  rm_table m ≠ tbl → table (create_all m objects s) tbl = table s tbl.
Proof.
  intros Hne. unfold create_all. revert s.
  induction objects as [|o os IH]; intros s; simpl; [done|].
  rewrite IH, table_insert_row. by destruct (decide (rm_table m = tbl)).
Qed.

Lemma clock_save_row tbl r s : clock (save_row tbl r s) = S (clock s).
Proof. done. Qed.

(** After [save] the stored row of the instance is the instance, stamped with
    the time of the call. *)
Lemma save_row_stored tbl r s :
  stamp_updated s r ∈ table (save_row tbl r s) tbl ∧
  ∀ x, x ∈ table (save_row tbl r s) tbl → x !! "id" = r !! "id" →
       x = stamp_updated s r.
Proof.
  unfold save_row. rewrite table_tick, table_set_table.
  destruct (decide (tbl = tbl)); [|done].
  set (same := λ x : row, bool_decide (x !! "id" = r !! "id")).
  destruct (existsb same (table s tbl)) eqn:He.
  - split.
    + apply existsb_exists in He as (x & Hx & Hs).
      apply list_elem_of_In, in_map_iff. exists x. unfold same in Hs. by rewrite Hs.
    + intros x Hx Hid. apply list_elem_of_In, in_map_iff in Hx as (y & Hy & _).
      destruct (bool_decide (y !! "id" = r !! "id")) eqn:Hs; [done|]. subst x.
      apply bool_decide_eq_false in Hs. done.
  - split.
    + apply elem_of_app. right. by constructor.
    + intros x Hx Hid. apply elem_of_app in Hx as [Hx | Hx].
      * assert (existsb same (table s tbl) = true); [|congruence].
        apply existsb_exists. exists x. split; [by apply list_elem_of_In|].
        unfold same. by apply bool_decide_eq_true.
      * by apply list_elem_of_singleton in Hx.
Qed.

(** The rows under the read view go, the others stay in place, the new rows
    come after them. *)
Lemma replace_all_table person m q objects s :
  qs_table q = rm_table m → rm_table m ≠ i_model person →
  ∃ created,
    table (replace_all person m q objects s) (rm_table m)
    = List.filter (λ r, negb (visible s q r)) (table s (rm_table m)) ++ created ∧
    Forall2 (created_from m) objects created.
Proof.
  intros Hq Hne. unfold replace_all.
  set (s1 := if bool_decide (qs_count s q ≠ 0) then qs_delete q s else s).
  rewrite table_save_row_ne by done.
  destruct (table_create_all m objects s1) as (created & Ht & Hc).
  exists created. split; [|done]. rewrite Ht. f_equal.
  unfold s1. destruct (bool_decide (qs_count s q ≠ 0)) eqn:Hz.
  - rewrite table_qs_delete, Hq. by destruct (decide (rm_table m = rm_table m)).
  - apply bool_decide_eq_false in Hz.
    assert (qs_rows s q = []) as Hnil.
    { apply length_zero_iff_nil. unfold qs_count in Hz. lia. }
    unfold qs_rows in Hnil. rewrite Hq in Hnil.
    clear -Hnil. induction (table s (rm_table m)) as [|r rs IH]; [done|].
    simpl in *. destruct (visible s q r); [done|]. simpl. f_equal. auto.
Qed.



(** ** [get_update_or_create] *)

Lemma lookup_kwargs_run data lookup_keys st :
  Forall (λ k, is_Some (data !! k)) lookup_keys →
  lookup_kwargs data lookup_keys st = (Ok (kwargs_of data lookup_keys), st).
Proof.
  induction 1 as [|k ks [v Hv] _ IH]; simpl; [done|].
  rewrite Hv. unfold bind. by rewrite IH.
Qed.

Lemma qs_rows_filter s ModelCls kwargs :
  qs_rows s (qs_filter kwargs (default_manager ModelCls)) = lookup_rows s ModelCls kwargs.
Proof.
  unfold qs_rows, lookup_rows, visible. simpl.
  apply filter_ext. intros r. apply andb_true_r.
Qed.

Lemma objects_get_run ModelCls kwargs st :
  objects_get ModelCls kwargs st
  = match lookup_rows (db st) ModelCls kwargs with
    | [] => (Raise (DoesNotExist ModelCls), st)
    | [r] => (Ok r, st)
    | _ => (Raise (MultipleObjectsReturned ModelCls), st)
    end.
Proof. unfold objects_get, qs_get. by rewrite qs_rows_filter. Qed.

(** The loop of lines 77-80: when the instance has every field of the
    mapping, it ends with the fields of the mapping set over the stored ones
    and tells whether one differed; when it lacks one, [AttributeError]. *)
Lemma set_differing_spec (data obj : row) :
  match set_differing data obj with
  | Ok (obj', updated) =>
      has_attributes data obj ∧ obj' = data ∪ obj ∧
      (updated = true ↔ field_differs data obj)
  | Raise e =>
      ∃ field, is_Some (data !! field) ∧ obj !! field = None ∧ e = AttributeError field
  | OutOfFuel => False
  end.
Proof.
  unfold set_differing, has_attributes, field_differs.
  apply (map_fold_weak_ind
           (λ (acc : result (row * bool)) (m : row),
              match acc with
              | Ok (o, u) =>
                  (∀ field, is_Some (m !! field) → is_Some (obj !! field)) ∧
                  o = m ∪ obj ∧
                  (u = true ↔ ∃ field v, m !! field = Some v ∧ obj !! field ≠ Some v)
              | Raise e =>
                  ∃ field, is_Some (m !! field) ∧ obj !! field = None ∧
                           e = AttributeError field
              | OutOfFuel => False
              end)).
  - split; [by intros field [v Hv]; rewrite lookup_empty in Hv|].
    split; [by rewrite (left_id_L ∅ (∪)) |].
    split; [done | intros (? & ? & H & _); by rewrite lookup_empty in H].
  - intros i x m [[o u]|e|] Hi IH; [| |done].
    + destruct IH as (Hattr & -> & Hu).
      rewrite (lookup_union_r m obj i Hi).
      destruct (obj !! i) as [w|] eqn:Hw.
      * assert (∀ field, is_Some (<[i:=x]> m !! field) → is_Some (obj !! field)) as Hattr'.
        { intros field. rewrite lookup_insert. destruct (decide (i = field)) as [<-|].
          - by rewrite Hw.
          - apply Hattr. }
        destruct (bool_decide (w = x)) eqn:Hd.
        -- apply bool_decide_eq_true in Hd. subst w.
           split; [done|]. split.
           ++ rewrite <- insert_union_l. symmetry. apply insert_id.
              by rewrite (lookup_union_r m obj i Hi).
           ++ rewrite Hu. split.
              ** intros (f & v & Hf & Hne). exists f, v. split; [|done].
                 rewrite lookup_insert_ne; [done|]. intros ->. congruence.
              ** intros (f & v & Hf & Hne). exists f, v. split; [|done].
                 rewrite lookup_insert in Hf. destruct (decide (i = f)); [|done].
                 subst f. congruence.
        -- apply bool_decide_eq_false in Hd.
           split; [done|]. split; [by rewrite insert_union_l|].
           split; [|done]. intros _. exists i, x. rewrite lookup_insert_eq.
           split; [done|]. rewrite Hw. congruence.
      * exists i. rewrite lookup_insert_eq. eauto.
    + destruct IH as (f & Hf & Hn & ->). exists f. split; [|done].
      rewrite lookup_insert_ne; [done|]. intros ->. rewrite Hi in Hf. by destruct Hf.
Qed.

Lemma set_differing_Ok (data obj : row) :
  has_attributes data obj →
  ∃ updated, set_differing data obj = Ok (data ∪ obj, updated) ∧
             (updated = true ↔ field_differs data obj).
Proof.
  intros Hattr. pose proof (set_differing_spec data obj) as H.
  destruct (set_differing data obj) as [[o u]|e|]; [| |done].
  - destruct H as (_ & -> & Hu). by exists u.
  - destruct H as (f & Hf & Hn & _). apply Hattr in Hf. rewrite Hn in Hf. by destruct Hf.
Qed.

Lemma set_differing_Raise (data obj : row) :
  ¬ has_attributes data obj →
  ∃ field, is_Some (data !! field) ∧ obj !! field = None ∧
           set_differing data obj = Raise (AttributeError field).
Proof.
  intros Hattr. pose proof (set_differing_spec data obj) as H.
  destruct (set_differing data obj) as [[o u]|e|]; [| |done].
  - by destruct H as (? & _).
  - destruct H as (f & Hf & Hn & ->). by exists f.
Qed.

Lemma has_attributes_compute (data r : row) :
  bool_decide (map_Forall (λ field _, is_Some (r !! field)) data) = true →
  has_attributes data r.
Proof.
  rewrite bool_decide_eq_true. intros H field [v Hv]. by apply (H field v).
Qed.

(** A stored row that no field of the mapping differs from has every field
    of the mapping. *)
Lemma not_field_differs_attributes (data r : row) :
  ¬ field_differs data r → has_attributes data r.
Proof.
  intros H field [v Hv]. destruct (decide (r !! field = Some v)) as [->|Hne]; [done|].
  destruct H. by exists field, v.
Qed.

Lemma field_differs_subseteq (data r : row) : ¬ field_differs data r → data ∪ r = r.
Proof.
  intros H. apply map_subseteq_union, map_subseteq_spec. intros k v Hk.
  destruct (decide (r !! k = Some v)); [done|]. destruct H. by exists k, v.
Qed.

Lemma get_update_or_create_run ModelCls data lookup_keys st :
  Forall (λ k, is_Some (data !! k)) lookup_keys →
  get_update_or_create ModelCls data lookup_keys st
  = match lookup_rows (db st) ModelCls (kwargs_of data lookup_keys) with
    | [] =>
        let obj := stamp_created (db st) (new_row data (db st)) in
        (Ok (obj, true, false),
         {| db := tick (insert_row ModelCls obj (db st)); cache := cache st |})
    | [r] =>
        match set_differing data r with
        | Ok (obj, true) =>
            (Ok (obj, false, true),
             {| db := save_row ModelCls obj (db st); cache := cache st |})
        | Ok (obj, false) => (Ok (obj, false, false), st)
        | Raise e => (Raise e, st)
        | OutOfFuel => (OutOfFuel, st)
        end
    | _ => (Raise (MultipleObjectsReturned ModelCls), st)
    end.
Proof.
  intros Hkeys. unfold get_update_or_create.
  unfold bind at 1. rewrite (lookup_kwargs_run _ _ _ Hkeys).
  unfold try_except. unfold bind at 1. rewrite objects_get_run.
  destruct (lookup_rows (db st) ModelCls (kwargs_of data lookup_keys)) as [|r [|r' rs]].
  - unfold except. rewrite bool_decide_eq_true_2 by done. done.
  - pose proof (set_differing_spec data r) as Hs. unfold bind at 1, lift_result at 1.
    destruct (set_differing data r) as [[obj [|]]|e|]; [| | |done].
    + unfold bind, save, write_db, ret. done.
    + unfold bind, save, write_db, ret. done.
    + destruct Hs as (f & _ & _ & ->). unfold except.
      rewrite bool_decide_eq_false_2 by done. done.
  - unfold except. rewrite bool_decide_eq_false_2 by done. done.
Qed.




(** ** Computations that only read *)

Lemma db_pure_ret {A} (a : A) : db_pure (ret a).
Proof. done. Qed.

Lemma db_pure_raise {A} e : db_pure (@raise A e).
Proof. done. Qed.

Lemma db_pure_read {A} (f : store → A) : db_pure (read f).
Proof. done. Qed.

Lemma db_pure_lift_result {A} (r : result A) : db_pure (lift_result r).
Proof. done. Qed.

Lemma db_pure_bind {A B} (m : M A) (k : A → M B) :
  db_pure m → (∀ a, db_pure (k a)) → db_pure (bind m k).
Proof.
  intros Hm Hk st. unfold bind. specialize (Hm st).
  destruct (m st) as [[a|e|] st1]; simpl in *; [|done|done].
  by rewrite Hk.
Qed.

Lemma db_pure_try_except {A} (m : M A) handler :
  db_pure m → (∀ e h, handler e = Some h → db_pure h) →
  db_pure (try_except m handler).
Proof.
  intros Hm Hh st. unfold try_except. specialize (Hm st).
  destruct (m st) as [[a|e|] st1]; simpl in *; [done| |done].
  destruct (handler e) as [h|] eqn:He; [|done].
  by rewrite (Hh _ _ He).
Qed.

Lemma db_pure_except {A} e0 (h : M A) e h' :
  db_pure h → except e0 h e = Some h' → db_pure h'.
Proof. unfold except. intros Hh. destruct (bool_decide (e = e0)); congruence. Qed.

Lemma db_pure_getitem d key : db_pure (getitem d key).
Proof. unfold getitem. by destruct (d !! key). Qed.

Lemma db_pure_qs_get q : db_pure (qs_get q).
Proof. intros st. unfold qs_get. by destruct (qs_rows (db st) q) as [|? [|]]. Qed.

Lemma db_pure_objects_get ModelCls kwargs : db_pure (objects_get ModelCls kwargs).
Proof. apply db_pure_qs_get. Qed.

Lemma db_pure_cached_lookup ModelCls kwargs : db_pure (cached_lookup ModelCls kwargs).
Proof.
  intros st. unfold cached_lookup.
  destruct (List.find _ (cache st)); [done|].
  pose proof (db_pure_objects_get ModelCls kwargs st) as H.
  by destruct (objects_get ModelCls kwargs st) as [[r|e|] st1].
Qed.

Create HintDb db_pure.

#[local] Hint Resolve db_pure_ret db_pure_raise db_pure_read db_pure_lift_result
  db_pure_getitem db_pure_qs_get db_pure_objects_get db_pure_cached_lookup : db_pure.

Ltac db_pure_step :=
  match goal with
  | |- db_pure (bind _ _) => apply db_pure_bind; [|intros ?; cbv beta]
  | |- db_pure (try_except _ _) => apply db_pure_try_except; [|intros ? ? ?; cbv beta]
  | |- db_pure (match ?x with _ => _ end) => destruct x
  | H : except _ _ _ = Some ?h |- db_pure ?h =>
      eapply db_pure_except; [|exact H]
  | H : (if ?b then _ else _) = Some _ |- _ => destruct b; simplify_eq
  | H : None = Some _ |- _ => discriminate H
  | |- db_pure _ => solve [auto with db_pure]
  end.

Ltac db_pure := repeat db_pure_step.

Lemma db_pure_party_membership party : db_pure (party_membership party).
Proof. unfold party_membership. db_pure. Qed.

Lemma db_pure_chamber_membership ld role t : db_pure (chamber_membership ld role t).
Proof. unfold chamber_membership, posts_get. db_pure. Qed.

Lemma db_pure_role_membership ld role : db_pure (role_membership ld role).
Proof.
  unfold role_membership. db_pure; apply db_pure_chamber_membership.
Qed.

Lemma db_pure_party_memberships parties : db_pure (party_memberships parties).
Proof.
  induction parties as [|p ps IH]; simpl; [apply db_pure_ret|].
  apply db_pure_bind; [apply db_pure_party_membership | intros m].
  apply db_pure_bind; [done | intros ms; apply db_pure_ret].
Qed.

Lemma db_pure_role_memberships ld roles : db_pure (role_memberships ld roles).
Proof.
  induction roles as [|r rs IH]; simpl; [apply db_pure_ret|].
  apply db_pure_bind; [apply db_pure_role_membership | intros m].
  apply db_pure_bind; [done | intros ms; apply db_pure_ret].
Qed.

Lemma db_pure_person_memberships ld data : db_pure (person_memberships ld data).
Proof.
  unfold person_memberships.
  apply db_pure_bind; [apply db_pure_party_memberships | intros ps].
  apply db_pure_bind; [apply db_pure_role_memberships | intros rs; apply db_pure_ret].
Qed.

(** ** Idempotence of the loaders *)

Lemma person_fields_id data st fields st' :
  person_fields data st = (Ok fields, st') → is_Some (fields !! "id").
Proof.
  unfold person_fields, bind, getitem, ret, raise.
  destruct (scalars data !! "id"); [|done].
  destruct (scalars data !! "name"); [|done].
  intros H. injection H as <- _. rewrite lookup_insert_eq. eauto.
Qed.

Lemma org_fields_id data parent st fields st' :
  org_fields data parent st = (Ok fields, st') → is_Some (fields !! "id").
Proof.
  unfold org_fields, bind, getitem, ret, raise.
  destruct (scalars data !! "id"); [|done].
  destruct (scalars data !! "name"); [|done].
  destruct (scalars data !! "jurisdiction"); [|done].
  destruct (scalars data !! "classification"); [|done].
  intros H. injection H as <- _. rewrite lookup_insert_eq. eauto.
Qed.

(** The stored row has every field of the mapping: nothing is written. *)
Lemma get_update_or_create_same ModelCls data lookup_keys st r :
  Forall (λ k, is_Some (data !! k)) lookup_keys →
  lookup_rows (db st) ModelCls (kwargs_of data lookup_keys) = [r] →
  ¬ field_differs data r →
  get_update_or_create ModelCls data lookup_keys st = (Ok (r, false, false), st).
Proof.
  intros Hkeys Hrows Hsame.
  rewrite (get_update_or_create_run _ _ _ _ Hkeys), Hrows.
  destruct (set_differing_Ok data r (not_field_differs_attributes data r Hsame))
    as (updated & -> & Hu).
  destruct updated; [by destruct Hsame; apply Hu|].
  by rewrite field_differs_subseteq.
Qed.

Lemma load_person_in_step ld data st :
  person_in_step ld data st →
  ∃ st', load_person ld data st = (Ok (false, false), st') ∧ db st' = db st.
Proof.
  intros (fields & p & ms & st1 & Hf & Hrows & Hsame & H1 & H2 & H3 & H4 & H5 & Hms & H6).
  unfold load_person.
  rewrite (bind_Ok _ _ _ _ _ Hf).
  assert (Forall (λ k, is_Some (fields !! k)) ["id"]) as Hk.
  { repeat constructor. eapply person_fields_id. exact Hf. }
  rewrite (bind_Ok _ _ _ _ _
             (get_update_or_create_same Person fields ["id"] st p Hk Hrows Hsame)).
  cbn [fst snd].
  set (person := Instance Person p).
  rewrite (bind_Ok _ _ _ _ _ (update_subobjects_in_sync person "other_names" _ None st H1)).
  rewrite (bind_Ok _ _ _ _ _ (update_subobjects_in_sync person "links" _ None st H2)).
  rewrite (bind_Ok _ _ _ _ _ (update_subobjects_in_sync person "sources" _ None st H3)).
  rewrite (bind_Ok _ _ _ _ _ (update_subobjects_in_sync person "identifiers" _ None st H4)).
  rewrite (bind_Ok _ _ _ _ _
             (update_subobjects_in_sync person "contact_details" _ None st H5)).
  rewrite (bind_Ok _ _ _ _ _ Hms).
  assert (db st1 = db st) as Hdb.
  { pose proof (db_pure_person_memberships ld data st) as H. by rewrite Hms in H. }
  rewrite <- Hdb in H6.
  rewrite (bind_Ok _ _ _ _ _
             (update_subobjects_in_sync person "memberships" ms
                (Some (non_committee person)) st1 H6)).
  exists st1. done.
Qed.

Lemma load_org_in_step data st :
  org_in_step data st → load_org data st = (Ok (false, false), st).
Proof.
  intros (parent & fields & o & ms & Hp & Hf & Hrows & Hsame & H1 & H2 & Hms & H3).
  unfold load_org.
  rewrite (bind_Ok _ _ _ _ _ Hp).
  rewrite (bind_Ok _ _ _ _ _ Hf).
  assert (Forall (λ k, is_Some (fields !! k)) ["id"]) as Hk.
  { repeat constructor. eapply org_fields_id. exact Hf. }
  rewrite (bind_Ok _ _ _ _ _
             (get_update_or_create_same Organization fields ["id"] st o Hk Hrows Hsame)).
  cbn [fst snd].
  set (org := Instance Organization o).
  rewrite (bind_Ok _ _ _ _ _ (update_subobjects_in_sync org "links" _ None st H1)).
  rewrite (bind_Ok _ _ _ _ _ (update_subobjects_in_sync org "sources" _ None st H2)).
  rewrite (bind_Ok _ _ _ _ _ Hms).
  rewrite (bind_Ok _ _ _ _ _ (update_subobjects_in_sync org "memberships" _ None st H3)).
  done.
Qed.



Lemma not_field_differs_compute data r :
  match set_differing data r with Ok (_, false) => true | _ => false end = true →
  ¬ field_differs data r.
Proof.
  intros H Hd. pose proof (set_differing_spec data r) as Hs.
  destruct (set_differing data r) as [[o [|]]|e|]; [done| |done|done].
  destruct Hs as (_ & _ & Hu). by apply Hu in Hd.
Qed.

Lemma person_fields_state data st : (person_fields data st).2 = st.
Proof.
  unfold person_fields, bind, getitem, ret, raise.
  destruct (scalars data !! "id"); [|done].
  by destruct (scalars data !! "name").
Qed.

Lemma person_in_stepb_sound ld data st :
  person_in_stepb ld data st = true → person_in_step ld data st.
Proof.
  unfold person_in_stepb, person_in_step.
  pose proof (person_fields_state data st) as Hst.
  destruct (person_fields data st) as [[fields| |] st0] eqn:Hf;
    [|discriminate|discriminate].
  simpl in Hst. subst st0.
  destruct (lookup_rows (db st) Person (kwargs_of fields ["id"])) as [|p [|]] eqn:Hrows;
    [discriminate| |discriminate].
  destruct (person_memberships ld data st) as [[ms| |] st1] eqn:Hms.
  2,3: rewrite !andb_false_r; discriminate.
  rewrite !andb_true_iff, !negb_true_iff.
  intros ((((((H0 & H1) & H2) & H3) & H4) & H5) & H6).
  exists fields, p, ms, st1.
  split; [done|]. split; [done|].
  split; [by apply not_field_differs_compute|].
  repeat (split; [by apply differs_false|]).
  split; [done|]. by apply differs_false.
Qed.


(** ** Roles that are not seats in a chamber *)

Lemma role_membership_unsupported ld role t st :
  role !! "type" = Some (VStr t) →
  t ≠ "upper" → t ≠ "lower" → t ≠ "legislature" →
  role_membership ld role st = (Raise (ValueError "unsupported role type"), st).
Proof.
  intros Ht H1 H2 H3. unfold role_membership, bind, getitem. rewrite Ht.
  unfold ret. unfold contains. rewrite bool_decide_eq_false_2; [done|].
  rewrite !elem_of_cons, elem_of_nil. intros [?|[?|[?|[]]]]; congruence.
Qed.

Lemma role_memberships_unsupported ld roles role t st ms st' :
  role ∈ roles →
  role !! "type" = Some (VStr t) →
  t ≠ "upper" → t ≠ "lower" → t ≠ "legislature" →
  role_memberships ld roles st ≠ (Ok ms, st').
Proof.
  intros Hin Ht H1 H2 H3. revert st ms st'.
  induction roles as [|r rs IH]; intros st ms st'; [by apply elem_of_nil in Hin|].
  simpl. intros Hrun.
  apply bind_Ok_inv in Hrun as (m & st1 & Hm & Hrun).
  apply bind_Ok_inv in Hrun as (ms' & st2 & Hms & _).
  apply elem_of_cons in Hin as [<- | Hin].
  - rewrite (role_membership_unsupported ld role t st Ht H1 H2 H3) in Hm. done.
  - by apply (IH Hin st1 ms' st2).
Qed.

(** C5 (what the code does).  A record with a role of type governor or mayor
    is not loaded: [load_person] never returns for it, whatever the store
    holds. *)
Theorem load_person_executive_role_fails ld data role t st :
  role ∈ get_list data "roles" →
  role !! "type" = Some (VStr t) →
  t = "governor" ∨ t = "mayor" →
  ∀ r st', load_person ld data st ≠ (Ok r, st').
Proof.
  intros Hin Ht Hexec r st' Hrun.
  unfold load_person in Hrun.
  apply bind_Ok_inv in Hrun as (fields & s1 & _ & Hrun).
  apply bind_Ok_inv in Hrun as (p & s2 & _ & Hrun).
  apply bind_Ok_inv in Hrun as (u1 & s3 & _ & Hrun).
  apply bind_Ok_inv in Hrun as (u2 & s4 & _ & Hrun).
  apply bind_Ok_inv in Hrun as (u3 & s5 & _ & Hrun).
  apply bind_Ok_inv in Hrun as (u4 & s6 & _ & Hrun).
  apply bind_Ok_inv in Hrun as (u5 & s7 & _ & Hrun).
  apply bind_Ok_inv in Hrun as (ms & s8 & Hms & _).
  unfold person_memberships in Hms.
  apply bind_Ok_inv in Hms as (ps & s9 & _ & Hms).
  apply bind_Ok_inv in Hms as (rs & s10 & Hrs & _).
  revert Hrs. apply (role_memberships_unsupported ld _ role t); auto.
  all: destruct Hexec as [-> | ->]; done.
Qed.

(** The governor of test_person_governor_role. *)
Lemma load_person_executive_role_fails_witness :
  ex_governor_role ∈ get_list ex_governor_doc "roles" ∧
  ex_governor_role !! "type" = Some (VStr "governor") ∧
  ∀ r st', load_person ex_no_legacy ex_governor_doc ex_setup ≠ (Ok r, st').
Proof.
  assert (ex_governor_role ∈ get_list ex_governor_doc "roles") as Hin.
  { vm_compute. left. }
  assert (ex_governor_role !! "type" = Some (VStr "governor")) as Ht.
  { vm_compute. reflexivity. }
  split; [exact Hin|]. split; [exact Ht|].
  exact (load_person_executive_role_fails ex_no_legacy ex_governor_doc
           ex_governor_role "governor" ex_setup Hin Ht (or_introl eq_refl)).
Defined.

(** What it raises there. *)
Example load_person_governor :
  (load_person ex_no_legacy ex_governor_doc ex_setup).1
  = Raise (ValueError "unsupported role type").
Proof. vm_compute. reflexivity. Qed.

(** ** [sort_organizations] *)

Lemma list_remove_Ok x xs rest :
  list_remove x xs = Ok rest → xs ≡ₚ x :: rest.
Proof.
  revert rest. induction xs as [|y ys IH]; intros rest; simpl; [done|].
  destruct (bool_decide (x = y)) eqn:Hxy.
  - apply bool_decide_eq_true in Hxy as ->. by intros [= ->].
  - destruct (list_remove x ys) as [ys'| |]; [|done|done].
    intros [= <-]. rewrite (IH ys' eq_refl). apply Permutation_swap.
Qed.

Lemma list_remove_elem_of x xs :
  x ∈ xs → ∃ rest, list_remove x xs = Ok rest.
Proof.
  induction xs as [|y ys IH]; intros Hin; [by apply elem_of_nil in Hin|].
  simpl. destruct (bool_decide (x = y)) eqn:Hxy; [eauto|].
  apply bool_decide_eq_false in Hxy.
  apply elem_of_cons in Hin as [-> | Hin]; [done|].
  destruct (IH Hin) as (rest & ->). eauto.
Qed.

Lemma sort_visit_Ok e st st' :
  sort_visit e st = Ok st' →
  st' = st ∨
  ∃ parent id,
    parent_of e = Some parent ∧ ready (seen st) parent = Ok true ∧
    id_of e = Some id ∧ orgs st ≡ₚ e :: orgs st' ∧
    order st' = order st ++ [e] ∧ seen st' = id :: seen st.
Proof.
  unfold sort_visit, parent_of, id_of.
  destruct (scalars e.1 !! "parent") as [parent|]; [|done].
  destruct (ready (seen st) parent) as [[|]| |] eqn:Hr; [| |done|done].
  - destruct (scalars e.1 !! "id") as [id|]; [|done].
    destruct (list_remove e (orgs st)) as [rest| |] eqn:Hrm; [|done|done].
    intros [= <-]. right. exists parent, id. simpl.
    repeat split; try done. by apply list_remove_Ok.
  - intros [= <-]. by left.
Qed.

Lemma sort_visit_not_assertion e st : sort_visit e st ≠ Raise AssertionError.
Proof.
  unfold sort_visit.
  destruct (scalars e.1 !! "parent") as [parent|]; [|done].
  unfold ready, startswith.
  destruct parent; try done. simpl.
  destruct (_ || _); [|done].
  destruct (scalars e.1 !! "id") as [id|]; [|done].
  generalize (orgs st). intros xs.
  assert (list_remove e xs ≠ Raise AssertionError) as H.
  { induction xs as [|y ys IH]; simpl; [done|].
    destruct (bool_decide (e = y)); [done|].
    by destruct (list_remove e ys) as [?|[]|]. }
  by destruct (list_remove e xs) as [?|[]|].
Qed.

Lemma sort_pass_not_assertion snapshot st : sort_pass snapshot st ≠ Raise AssertionError.
Proof.
  revert st. induction snapshot as [|e es IH]; intros st; simpl; [done|].
  pose proof (sort_visit_not_assertion e st) as H.
  destruct (sort_visit e st) as [st'|err|]; [apply IH | done | done].
Qed.

Lemma sort_loop_not_assertion fuel st : sort_loop fuel st ≠ Raise AssertionError.
Proof.
  revert st. induction fuel as [|n IH]; intros st; simpl.
  - by destruct (orgs st).
  - destruct (orgs st) as [|e es] eqn:Ho; [done|].
    pose proof (sort_pass_not_assertion (e :: es) st) as H.
    destruct (sort_pass (e :: es) st) as [st'|err|]; [apply IH | done | done].
Qed.

(** What is ordered and what is left make up the batch. *)
Lemma sort_visit_length e st st' :
  sort_visit e st = Ok st' →
  length (order st') + length (orgs st') = length (order st) + length (orgs st).
Proof.
  intros H. apply sort_visit_Ok in H as [-> | (p & i & _ & _ & _ & Hperm & Ho & _)]; [done|].
  rewrite Ho, Hperm, length_app. simpl. lia.
Qed.

Lemma sort_pass_length snapshot st st' :
  sort_pass snapshot st = Ok st' →
  length (order st') + length (orgs st') = length (order st) + length (orgs st).
Proof.
  revert st. induction snapshot as [|e es IH]; intros st; simpl; [by intros [= ->]|].
  destruct (sort_visit e st) as [st1|err|] eqn:Hv; [|done|done].
  intros H. rewrite (IH _ H). by apply (sort_visit_length e).
Qed.

Lemma sort_loop_length fuel st st' :
  sort_loop fuel st = Ok st' →
  orgs st' = [] ∧ length (order st') = length (order st) + length (orgs st).
Proof.
  revert st. induction fuel as [|n IH]; intros st; simpl.
  - destruct (orgs st) eqn:Ho; [|done]. intros [= <-]. rewrite Ho. simpl. split; [done | lia].
  - destruct (orgs st) as [|e es] eqn:Ho.
    + intros [= <-]. rewrite Ho. simpl. split; [done | lia].
    + destruct (sort_pass (e :: es) st) as [st1|err|] eqn:Hp; [|done|done].
      intros H. destruct (IH _ H) as [Hnil Hlen]. split; [done|].
      rewrite Hlen. apply sort_pass_length in Hp. rewrite Ho in Hp. done.
Qed.

Lemma sort_organizations_assert_dead fuel batch :
  sort_organizations fuel batch ≠ Raise AssertionError.
Proof.
  unfold sort_organizations.
  pose proof (sort_loop_not_assertion fuel {| orgs := batch; order := []; seen := [] |}) as Hna.
  destruct (sort_loop fuel _) as [st|err|] eqn:Hl; [|congruence|done].
  apply sort_loop_length in Hl as [_ Hlen]. simpl in Hlen.
  by rewrite bool_decide_eq_true_2.
Qed.

Lemma sort_visit_stuck batch stuck e st st' :
  unorderable batch stuck → stuck_invariant batch stuck st → e ∈ batch →
  sort_visit e st = Ok st' → stuck_invariant batch stuck st'.
Proof.
  intros [_ Hun] (He0 & Hsub & Hseen) He Hv.
  apply sort_visit_Ok in Hv as [-> | (parent & id & Hp & Hr & Hid & Hperm & _ & Hs)];
    [done|].
  assert (stuck e = false) as Hne.
  { destruct (stuck e) eqn:Hst; [|done].
    destruct (Hun e He Hst) as (s & Hps & Hpre & Hfresh).
    rewrite Hps in Hp. injection Hp as <-.
    unfold ready, startswith in Hr. rewrite Hpre in Hr. simpl in Hr.
    rewrite orb_false_r in Hr. injection Hr as Hr.
    apply bool_decide_eq_true in Hr.
    destruct (Hseen _ Hr) as (e' & He' & Hst' & Hid').
    by destruct (Hfresh e' He' Hst'). }
  split; [|split].
  - destruct He0 as (e0 & He0 & Hst0). exists e0. split; [|done].
    rewrite Hperm in He0. apply elem_of_cons in He0 as [-> | He0]; [congruence | done].
  - intros e1 He1. apply Hsub. rewrite Hperm. by right.
  - intros v Hv. rewrite Hs in Hv. apply elem_of_cons in Hv as [-> | Hv]; [|by apply Hseen].
    by exists e.
Qed.

Lemma sort_pass_stuck batch stuck snapshot st st' :
  unorderable batch stuck → stuck_invariant batch stuck st →
  (∀ e, e ∈ snapshot → e ∈ batch) →
  sort_pass snapshot st = Ok st' → stuck_invariant batch stuck st'.
Proof.
  intros Hun. revert st. induction snapshot as [|e es IH]; intros st Hinv Hsub; simpl.
  - by intros [= <-].
  - destruct (sort_visit e st) as [st1|err|] eqn:Hv; [|done|done].
    apply IH.
    + apply (sort_visit_stuck batch stuck e st); [done | done | | done].
      apply Hsub. by left.
    + intros e1 He1. apply Hsub. by right.
Qed.

Lemma sort_loop_stuck batch stuck fuel st st' :
  unorderable batch stuck → stuck_invariant batch stuck st →
  sort_loop fuel st ≠ Ok st'.
Proof.
  intros Hun. revert st. induction fuel as [|n IH]; intros st Hinv; simpl.
  - destruct Hinv as ((e0 & He0 & _) & _ & _).
    destruct (orgs st); [by apply elem_of_nil in He0 | done].
  - pose proof Hinv as ((e0 & He0 & _) & Hsub & _).
    destruct (orgs st) as [|e es] eqn:Ho; [by apply elem_of_nil in He0|].
    destruct (sort_pass (e :: es) st) as [st1|err|] eqn:Hp; [|done|done].
    apply IH. apply (sort_pass_stuck batch stuck (e :: es) st); auto.
Qed.

Lemma stuck_invariant_init batch stuck :
  unorderable batch stuck →
  stuck_invariant batch stuck {| orgs := batch; order := []; seen := [] |}.
Proof.
  intros [He0 _]. split; [done|]. split; [done|].
  intros v Hv. by apply elem_of_nil in Hv.
Qed.

(** On well-formed records a pass raises nothing. *)
Lemma sort_pass_total batch snapshot st :
  well_formed_batch batch →
  (∀ e, e ∈ snapshot → e ∈ batch) →
  snapshot ⊆+ orgs st →
  ∃ st', sort_pass snapshot st = Ok st'.
Proof.
  intros Hwf. revert st. induction snapshot as [|e es IH]; intros st Hsub Hms; simpl.
  - eauto.
  - destruct (Hwf e (Hsub e ltac:(by left))) as [[id Hid] [s Hs]].
    assert (∃ st1, sort_visit e st = Ok st1 ∧ es ⊆+ orgs st1) as (st1 & Hv & Hms1).
    { unfold sort_visit. unfold parent_of in Hs. unfold id_of in Hid. rewrite Hs.
      unfold ready, startswith.
      destruct (_ || _).
      - rewrite Hid.
        apply submseteq_cons_l in Hms as (rest' & Hperm & Hes).
        destruct (list_remove_elem_of e (orgs st)) as (rest & Hrm).
        { rewrite Hperm. by left. }
        rewrite Hrm. eexists. split; [done|]. simpl.
        apply list_remove_Ok in Hrm. rewrite Hperm in Hrm.
        apply Permutation_cons_inv in Hrm. by rewrite <- Hrm.
      - eexists. split; [done|]. etrans; [|exact Hms]. by apply submseteq_cons. }
    rewrite Hv. apply IH; [|done]. intros e1 He1. apply Hsub. by right.
Qed.

Lemma sort_loop_diverges batch stuck fuel st :
  unorderable batch stuck → well_formed_batch batch →
  stuck_invariant batch stuck st →
  sort_loop fuel st = OutOfFuel.
Proof.
  intros Hun Hwf. revert st. induction fuel as [|n IH]; intros st Hinv; simpl.
  - destruct Hinv as ((e0 & He0 & _) & _ & _).
    destruct (orgs st); [by apply elem_of_nil in He0 | done].
  - pose proof Hinv as ((e0 & He0 & _) & Hsub & _).
    destruct (orgs st) as [|e es] eqn:Ho; [by apply elem_of_nil in He0|].
    destruct (sort_pass_total batch (e :: es) st Hwf) as (st1 & Hp).
    { exact Hsub. }
    { by rewrite Ho. }
    rewrite Hp. apply IH. apply (sort_pass_stuck batch stuck (e :: es) st); auto.
Qed.

(** C4 (what the code does).  The assertion of line 248 holds whenever it is
    reached, whatever the batch.  On a batch that cannot be fully ordered
    [sort_organizations] never returns an order, and when the records are
    well formed it raises nothing either: the [while] loop runs for ever. *)
Theorem sort_organizations_unorderable :
  (∀ fuel batch, sort_organizations fuel batch ≠ Raise AssertionError) ∧
  (∀ batch stuck,
     unorderable batch stuck →
     ∀ fuel order, sort_organizations fuel batch ≠ Ok order) ∧
  (∀ batch stuck,
     unorderable batch stuck → well_formed_batch batch →
     ∀ fuel, sort_organizations fuel batch = OutOfFuel).
Proof.
  split; [apply sort_organizations_assert_dead|]. split.
  - intros batch stuck Hun fuel ord. unfold sort_organizations.
    pose proof (λ st', sort_loop_stuck batch stuck fuel _ st' Hun
                         (stuck_invariant_init _ _ Hun)) as H.
    destruct (sort_loop fuel _) as [st| |] eqn:Hl; [|done|done].
    by destruct (H st).
  - intros batch stuck Hun Hwf fuel. unfold sort_organizations.
    by rewrite (sort_loop_diverges batch stuck fuel _ Hun Hwf (stuck_invariant_init _ _ Hun)).
Qed.

(** Two committees that name each other as parent: no number of passes
    comes to an end. *)
Lemma sort_organizations_unorderable_witness :
  unorderable ex_cycle (λ _, true) ∧
  well_formed_batch ex_cycle ∧
  ∀ fuel, sort_organizations fuel ex_cycle = OutOfFuel.
Proof.
  destruct sort_organizations_unorderable as (_ & _ & H).
  assert (unorderable ex_cycle (λ _, true)) as Hun; [|
    assert (well_formed_batch ex_cycle) as Hwf;
    [|split; [exact Hun|]; split; [exact Hwf|]; exact (H ex_cycle (λ _, true) Hun Hwf)]].
  - split.
    + exists (ex_committee "ocd-organization/a" "ocd-organization/b").
      split; [left | reflexivity].
    + intros e He _.
      apply elem_of_cons in He as [-> | He];
        [| apply elem_of_cons in He as [-> | He]; [| by apply elem_of_nil in He]].
      * exists "ocd-organization/b".
        split; [vm_compute; reflexivity|]. split; [vm_compute; reflexivity|].
        intros e' _ Hf. discriminate Hf.
      * exists "ocd-organization/a".
        split; [vm_compute; reflexivity|]. split; [vm_compute; reflexivity|].
        intros e' _ Hf. discriminate Hf.
  - intros e He.
    apply elem_of_cons in He as [-> | He];
      [| apply elem_of_cons in He as [-> | He]; [| by apply elem_of_nil in He]].
    + split; [exists (VStr "ocd-organization/a") | exists "ocd-organization/b"];
        vm_compute; reflexivity.
    + split; [exists (VStr "ocd-organization/b") | exists "ocd-organization/a"];
        vm_compute; reflexivity.
Defined.

(** ** [load_directory] *)

Lemma db_pure_get_by_identifier ModelCls missing_id :
  db_pure (get_by_identifier ModelCls missing_id).
Proof.
  intros st. unfold get_by_identifier.
  by destruct (flat_map _ _) as [|? [|]].
Qed.

Lemma db_pure_find_merges ModelCls missing_ids : db_pure (find_merges ModelCls missing_ids).
Proof.
  induction missing_ids as [|x xs IH]; simpl; [apply db_pure_ret|].
  apply db_pure_bind; [|intros found; apply db_pure_bind; [done | intros; apply db_pure_ret]].
  apply db_pure_try_except.
  - apply db_pure_bind; [apply db_pure_get_by_identifier | intros; apply db_pure_ret].
  - intros e h He. eapply db_pure_except; [|exact He]. apply db_pure_ret.
Qed.

(** The run of [load_directory] on organizations, up to the merge. *)
Lemma load_directory_organization ld fuel files jurisdiction_id purge st
    all_data loaded st1 merged st2 :
  sort_organizations fuel files = Ok all_data →
  load_all load_org all_data no_totals st = (Ok loaded, st1) →
  find_merges Organization
    (list_difference (committee_ids jurisdiction_id (db st)) (ids loaded)) st1
  = (Ok merged, st2) →
  load_directory ld fuel files "organization" jurisdiction_id purge st
  = (missing_ids <-
       match merged with
       | _ :: _ =>
           apply_merges "organization" Organization merged
             (list_difference (committee_ids jurisdiction_id (db st)) (ids loaded))
       | [] => ret (list_difference (committee_ids jurisdiction_id (db st)) (ids loaded))
       end ;;
     purge_gate Organization missing_ids purge ;;;
     ret loaded) st2.
Proof.
  intros Hsort Hload Hmerge. unfold load_directory.
  rewrite (bool_decide_eq_false_2 ("organization" = "person")) by done.
  rewrite !(bool_decide_eq_true_2 ("organization" = "organization")) by done.
  unfold bind at 1. unfold bind at 1, read at 1, ret at 1. cbn [fst snd].
  unfold bind at 1, lift_result at 1. rewrite Hsort.
  fold no_totals.
  rewrite (bind_Ok _ _ _ _ _ Hload).
  rewrite (bind_Ok _ _ _ _ _ Hmerge).
  done.
Qed.

(** C10.  For organizations, when the files have been loaded and some
    missing id is the openstates identifier of a stored organization,
    [load_directory] raises [NameError] for [BillSponsorship]: nothing is
    redirected and the stale row is not deleted.  In the transaction of
    [to_database] the exception is not the one that is caught there. *)
Theorem load_directory_organization_merge_fails ld fuel files jurisdiction_id purge st
    all_data loaded st1 merged st2 :
  sort_organizations fuel files = Ok all_data →
  load_all load_org all_data no_totals st = (Ok loaded, st1) →
  find_merges Organization
    (list_difference (committee_ids jurisdiction_id (db st)) (ids loaded)) st1
  = (Ok merged, st2) →
  merged ≠ [] →
  load_directory ld fuel files "organization" jurisdiction_id purge st
  = (Raise (NameError "BillSponsorship"), st2) ∧
  db st2 = db st1 ∧
  ∀ rest : M unit,
    try_except
      (atomic (load_directory ld fuel files "organization" jurisdiction_id purge ;;; rest))
      (except CancelTransaction (raise (SystemExit 1))) st
    = (Raise (NameError "BillSponsorship"), {| db := db st; cache := cache st2 |}).
Proof.
  intros Hsort Hload Hmerge Hne.
  assert (load_directory ld fuel files "organization" jurisdiction_id purge st
          = (Raise (NameError "BillSponsorship"), st2)) as Hrun.
  { rewrite (load_directory_organization ld fuel files jurisdiction_id purge st
               all_data loaded st1 merged st2 Hsort Hload Hmerge).
    destruct merged as [|[old new] merged]; [done|].
    reflexivity. }
  split; [done|]. split.
  - pose proof (db_pure_find_merges Organization
                  (list_difference (committee_ids jurisdiction_id (db st)) (ids loaded))
                  st1) as H.
    by rewrite Hmerge in H.
  - intros rest. unfold try_except, atomic.
    rewrite (bind_Raise _ _ _ _ _ Hrun). reflexivity.
Qed.

(** The committee [new] is loaded, [old] is missing and is found as the
    openstates identifier of [new]. *)
Lemma load_directory_organization_merge_fails_witness :
  (load_directory ex_no_legacy 1 [ex_new_committee] "organization" ex_nc false
     ex_merge_store).1
  = Raise (NameError "BillSponsorship").
Proof.
  destruct (load_directory_organization_merge_fails ex_no_legacy 1 [ex_new_committee]
              ex_nc false ex_merge_store [ex_new_committee]
              {| ids := [VStr "ocd-organization/new"];
                 created_count := 1; updated_count := 0 |}
              (load_all load_org [ex_new_committee] no_totals ex_merge_store).2
              [(VStr "ocd-organization/old", VStr "ocd-organization/new")]
              (load_all load_org [ex_new_committee] no_totals ex_merge_store).2)
    as [H _].
  - vm_compute. reflexivity.
  - vm_compute. reflexivity.
  - vm_compute. reflexivity.
  - discriminate.
  - rewrite H. reflexivity.
Defined.

(** ** [to_database] *)

(** C7 (as stated, refuted).  The run below completes with exit status 0
    when it is not a dry run, so no fatal condition occurs in it; as a dry
    run it exits with status 1. *)
Lemma dry_run_exit_status_counterexample :
  exit_status (ex_to_database false false).1 = Some 0 ∧
  exit_status (ex_to_database false true).1 = Some 1.
Proof. split; vm_compute; reflexivity. Qed.

(** C7 (amended).  In safe mode, when the parties are created and the steps
    of the first state's transaction return, [to_database] raises the same
    [CancelTransaction] as for a fatal error: the database is put back as it
    was when the transaction began, and the process exits there with status
    1. *)
Theorem dry_run_exits_1 ld metadata parties all_abbreviations jurisdiction_of
    person_files committee_files fuel abbreviations purge st abbr rest st1 t st2 :
  match abbreviations with [] => all_abbreviations | _ => abbreviations end
    = abbr :: rest →
  create_parties parties st = (Ok tt, st1) →
  (create_juris_orgs_posts metadata (jurisdiction_of abbr) ;;;
   load_directory ld fuel (person_files abbr) "person" (jurisdiction_of abbr) purge ;;;
   load_directory ld fuel (committee_files abbr) "organization" (jurisdiction_of abbr)
     purge) st1 = (Ok t, st2) →
  to_database ld metadata parties all_abbreviations jurisdiction_of person_files
    committee_files fuel abbreviations purge true st
  = (Raise (SystemExit 1), {| db := db st1; cache := cache st2 |}) ∧
  exit_status
    (to_database ld metadata parties all_abbreviations jurisdiction_of person_files
       committee_files fuel abbreviations purge true st).1
  = Some 1.
Proof.
  intros Habbr Hparties Hsteps.
  assert (to_database ld metadata parties all_abbreviations jurisdiction_of person_files
            committee_files fuel abbreviations purge true st
          = (Raise (SystemExit 1), {| db := db st1; cache := cache st2 |})) as Hrun;
    [|by rewrite Hrun].
  unfold to_database. rewrite (bind_Ok _ _ _ _ _ Hparties). rewrite Habbr.
  simpl for_each. apply bind_Raise.
  unfold try_except, atomic.
  apply bind_Ok_inv in Hsteps as (u1 & s1 & H1 & Hsteps).
  apply bind_Ok_inv in Hsteps as (u2 & s2 & H2 & H3).
  rewrite (bind_Ok _ _ _ _ _ H1), (bind_Ok _ _ _ _ _ H2), (bind_Ok _ _ _ _ _ H3).
  reflexivity.
Qed.

Lemma dry_run_exits_1_witness :
  (ex_to_database false true).1 = Raise (SystemExit 1).
Proof.
  unfold ex_to_database.
  destruct (dry_run_exits_1 ex_no_legacy ex_metadata [VStr "Democratic"] ["nc"]
              (λ _, ex_nc) ex_person_files ex_committee_files 1 [] false
              {| db := ex_empty; cache := [] |} "nc" []
              (create_parties [VStr "Democratic"] {| db := ex_empty; cache := [] |}).2
              {| ids := []; created_count := 0; updated_count := 0 |}
              ((create_juris_orgs_posts ex_metadata ex_nc ;;;
                load_directory ex_no_legacy 1 (ex_person_files "nc") "person" ex_nc false ;;;
                load_directory ex_no_legacy 1 (ex_committee_files "nc") "organization"
                  ex_nc false)
                 (create_parties [VStr "Democratic"] {| db := ex_empty; cache := [] |}).2).2)
    as [H _].
  - reflexivity.
  - vm_compute. reflexivity.
  - vm_compute. reflexivity.
  - rewrite H. reflexivity.
Defined.

(** ** Frames *)

Section Respects.
Context (R : relation store) `{!PreOrder R}.

Lemma respects_pure {A} (m : M A) : db_pure m → respects R m.
Proof. intros H st. by rewrite H. Qed.

Lemma respects_write_db f : (∀ s, R s (f s)) → respects R (write_db f).
Proof. intros H st. apply H. Qed.

Lemma respects_bind {A B} (m : M A) (k : A → M B) :
  respects R m → (∀ a, respects R (k a)) → respects R (bind m k).
Proof.
  intros Hm Hk st. unfold bind. specialize (Hm st).
  destruct (m st) as [[a|e|] st1]; simpl in *; [|done|done].
  etrans; [exact Hm | apply Hk].
Qed.

Lemma respects_try_except {A} (m : M A) handler :
  respects R m → (∀ e h, handler e = Some h → respects R h) →
  respects R (try_except m handler).
Proof.
  intros Hm Hh st. unfold try_except. specialize (Hm st).
  destruct (m st) as [[a|e|] st1]; simpl in *; [done| |done].
  destruct (handler e) as [h|] eqn:He; [|done].
  etrans; [exact Hm | by apply (Hh _ _ He)].
Qed.

Lemma respects_for_each {A} (xs : list A) (body : A → M unit) :
  (∀ x, respects R (body x)) → respects R (for_each xs body).
Proof.
  intros Hb. induction xs as [|x xs IH]; simpl.
  - intros st. simpl. reflexivity.
  - apply respects_bind; [apply Hb | done].
Qed.

Lemma respects_update_subobjects person fieldname objects read_manager :
  (∀ s, R s (replace_all person (getattr person fieldname)
               (read_view person fieldname read_manager) objects s)) →
  respects R (update_subobjects person fieldname objects read_manager).
Proof.
  intros H st. rewrite update_subobjects_run.
  destruct (differs _ _ _); simpl; [apply H | reflexivity].
Qed.
End Respects.

#[global] Instance keeps_preorder tbl : PreOrder (keeps tbl).
Proof.
  split; [by intros s | intros s1 s2 s3 H1 H2; unfold keeps in *; congruence].
Qed.

Lemma keeps_save_row tbl ModelCls r s : ModelCls ≠ tbl → keeps tbl s (save_row ModelCls r s).
Proof. intros H. by apply table_save_row_ne. Qed.

Lemma keeps_insert_row tbl tbl' r s : tbl' ≠ tbl → keeps tbl s (insert_row tbl' r s).
Proof.
  intros H. unfold keeps. rewrite table_insert_row. by destruct (decide (tbl' = tbl)).
Qed.

Lemma keeps_qs_delete tbl q s : qs_table q ≠ tbl → keeps tbl s (qs_delete q s).
Proof.
  intros H. unfold keeps. rewrite table_qs_delete. by destruct (decide (qs_table q = tbl)).
Qed.

Lemma keeps_replace_all tbl person m q objects s :
  i_model person ≠ tbl → rm_table m ≠ tbl → qs_table q ≠ tbl →
  keeps tbl s (replace_all person m q objects s).
Proof.
  intros H1 H2 H3. unfold replace_all, keeps.
  rewrite table_save_row_ne, table_create_all_ne by done.
  destruct (bool_decide _); [by apply keeps_qs_delete | done].
Qed.


Ltac r_pure := refine (respects_pure _ _ _).
Ltac r_bind := refine (respects_bind _ _ _ _ _); [|intros ?; cbv beta].
Ltac r_try := refine (respects_try_except _ _ _ _ _); [|intros ? ? ?].
Ltac r_write := refine (respects_write_db _ _ _).

Lemma db_pure_lookup_kwargs data lookup_keys : db_pure (lookup_kwargs data lookup_keys).
Proof.
  induction lookup_keys as [|k ks IH]; simpl; [apply db_pure_ret|].
  destruct (data !! k); [|apply db_pure_raise].
  apply db_pure_bind; [done | intros; apply db_pure_ret].
Qed.

Lemma respects_get_update_or_create (R : relation store) `{!PreOrder R}
    ModelCls data lookup_keys :
  (∀ r s, R s (save_row ModelCls r s)) →
  (∀ r s, R s (tick (insert_row ModelCls r s))) →
  respects R (get_update_or_create ModelCls data lookup_keys).
Proof.
  intros Hsave Hcreate. unfold get_update_or_create.
  r_bind; [r_pure; apply db_pure_lookup_kwargs|].
  r_try.
  - r_bind; [r_pure; apply db_pure_objects_get|].
    r_bind; [r_pure; apply db_pure_lift_result|].
    r_bind; [|r_pure; apply db_pure_ret].
    destruct a1.2; [|r_pure; apply db_pure_ret].
    r_write. intros s. apply Hsave.
  - unfold except in H. destruct (bool_decide _); [|done].
    injection H as <-. r_bind; [|r_pure; apply db_pure_ret].
    intros st. apply Hcreate.
Qed.

(** ** Committee memberships under [load_person] *)

Lemma related_matches_ext s s' fk tbl kw r :
  table s' tbl = table s tbl →
  related_matches s' fk tbl kw r = related_matches s fk tbl kw r.
Proof. unfold related_matches. by intros ->. Qed.

Lemma committee_membership_ext s s' person_id m :
  table s' Organization = table s Organization →
  committee_membership s' person_id m = committee_membership s person_id m.
Proof.
  intros H. unfold committee_membership. by rewrite (related_matches_ext s s').
Qed.

#[global] Instance committee_frame_preorder : PreOrder committee_frame.
Proof.
  split.
  - intros s. split; [done|]. intros person_id. done.
  - intros s1 s2 s3 [Ho1 Hm1] [Ho2 Hm2]. split; [congruence|].
    intros person_id. etrans; [apply Hm1|].
    rewrite <- (filter_ext _ _ (λ m, committee_membership_ext s1 s2 person_id m Ho1)).
    rewrite <- (filter_ext _ _ (λ m, committee_membership_ext s1 s2 person_id m Ho1)
                  (table s3 Membership)).
    apply Hm2.
Qed.

Lemma committee_frame_keeps s s' :
  keeps Organization s s' → keeps Membership s s' → committee_frame s s'.
Proof.
  unfold keeps. intros Ho Hm. split; [done|]. intros person_id. by rewrite Hm.
Qed.

(** The read view of the person-side pass shows no committee membership. *)
Lemma non_committee_visible s person m :
  visible s (non_committee person) m = true →
  ∀ person_id, committee_membership s person_id m = false.
Proof.
  unfold visible, non_committee, qs_exclude_rel, committee_membership.
  cbn [qs_conds all app forallb sat].
  rewrite !andb_true_iff, negb_true_iff.
  intros (_ & -> & _) person_id. apply andb_false_r.
Qed.

Lemma filter_committee_outside s person person_id (l : list row) :
  List.filter (committee_membership s person_id)
    (List.filter (λ r, negb (visible s (non_committee person) r)) l)
  = List.filter (committee_membership s person_id) l.
Proof.
  induction l as [|m ms IH]; [done|]. simpl.
  destruct (visible s (non_committee person) m) eqn:Hv; simpl.
  - rewrite (non_committee_visible s person m Hv person_id). exact IH.
  - destruct (committee_membership s person_id m); by rewrite IH.
Qed.

Lemma committee_frame_replace_all person objects s :
  i_model person = Person →
  committee_frame s
    (replace_all person (getattr person "memberships") (non_committee person) objects s).
Proof.
  intros Hmodel. split.
  - apply keeps_replace_all.
    + by rewrite Hmodel.
    + unfold getattr, related. by rewrite bool_decide_eq_true_2.
    + unfold non_committee, getattr, related. by rewrite bool_decide_eq_true_2.
  - intros person_id.
    destruct (replace_all_table person (getattr person "memberships")
                (non_committee person) objects s) as (created & Ht & _).
    + unfold non_committee, getattr, related. by rewrite bool_decide_eq_true_2.
    + rewrite Hmodel. unfold getattr, related. by rewrite bool_decide_eq_true_2.
    + assert (rm_table (getattr person "memberships") = Membership) as Htbl.
      { unfold getattr, related. by rewrite bool_decide_eq_true_2. }
      rewrite Htbl in Ht. rewrite Ht, List.filter_app.
      rewrite filter_committee_outside. by apply prefix_app_r.
Qed.

Lemma db_pure_person_fields data : db_pure (person_fields data).
Proof. unfold person_fields. db_pure. Qed.

Lemma committee_frame_person_sub p fieldname objects s :
  fieldname ∈ ["other_names"; "links"; "sources"; "identifiers"; "contact_details"] →
  committee_frame s
    (replace_all (Instance Person p) (getattr (Instance Person p) fieldname)
       (read_view (Instance Person p) fieldname None) objects s).
Proof.
  intros Hf. apply committee_frame_keeps.
  - apply keeps_replace_all; [done| |];
      repeat (apply elem_of_cons in Hf as [-> | Hf]; [done|]); by apply elem_of_nil in Hf.
  - apply keeps_replace_all; [done| |];
      repeat (apply elem_of_cons in Hf as [-> | Hf]; [done|]); by apply elem_of_nil in Hf.
Qed.

Lemma respects_load_person ld data : respects committee_frame (load_person ld data).
Proof.
  unfold load_person.
  r_bind; [r_pure; apply db_pure_person_fields|].
  r_bind.
  { apply (respects_get_update_or_create committee_frame).
    - intros r s. apply committee_frame_keeps; by apply keeps_save_row.
    - intros r s. apply committee_frame_keeps; unfold keeps; rewrite table_tick;
        by apply keeps_insert_row. }
  cbn [fst snd].
  r_bind.
  { apply (respects_update_subobjects committee_frame). intros s.
    apply committee_frame_person_sub. set_solver. }
  r_bind.
  { apply (respects_update_subobjects committee_frame). intros s.
    apply committee_frame_person_sub. set_solver. }
  r_bind.
  { apply (respects_update_subobjects committee_frame). intros s.
    apply committee_frame_person_sub. set_solver. }
  r_bind.
  { apply (respects_update_subobjects committee_frame). intros s.
    apply committee_frame_person_sub. set_solver. }
  r_bind.
  { apply (respects_update_subobjects committee_frame). intros s.
    apply committee_frame_person_sub. set_solver. }
  r_bind; [r_pure; apply db_pure_person_memberships|].
  r_bind; [|r_pure; apply db_pure_ret].
  apply (respects_update_subobjects committee_frame). intros s.
  by apply committee_frame_replace_all.
Qed.


(** ** The gate of [load_directory] *)

Lemma bind_assoc {A B C} (m : M A) (k : A → M B) (h : B → M C) st :
  bind (bind m k) h st = bind m (λ a, bind (k a) h) st.
Proof. unfold bind. by destruct (m st) as [[a|e|] st1]. Qed.

Lemma bind_congr {A B} (m : M A) (k1 k2 : A → M B) st :
  (∀ a st', k1 a st' = k2 a st') → bind m k1 st = bind m k2 st.
Proof. intros H. unfold bind. destruct (m st) as [[a|e|] st1]; [apply H|done|done]. Qed.

Lemma load_directory_gate ld fuel files type jurisdiction_id purge st :
  load_directory ld fuel files type jurisdiction_id purge st
  = (x <- merge_resolution ld fuel files type jurisdiction_id ;;
     purge_gate x.1.2 x.2 purge ;;;
     ret x.1.1) st.
Proof.
  unfold load_directory, merge_resolution. fold no_totals.
  rewrite bind_assoc. apply bind_congr. intros setup s1.
  rewrite bind_assoc. apply bind_congr. intros all_data s2.
  rewrite bind_assoc. apply bind_congr. intros loaded s3.
  rewrite bind_assoc. apply bind_congr. intros merged s4.
  rewrite bind_assoc. apply bind_congr. intros missing_ids s5.
  reflexivity.
Qed.

(** ** The ids of a model class under the loaders *)

#[global] Instance grows_preorder tbl : PreOrder (grows tbl).
Proof.
  split.
  - intros s. by split.
  - intros s1 s2 s3 [Hn1 Hi1] [Hn2 Hi2]. split; auto.
Qed.

Lemma grows_keeps tbl s s' : keeps tbl s s' → grows tbl s s'.
Proof. unfold keeps, grows, row_ids. intros ->. by split. Qed.

Lemma grows_append tbl s s' x :
  row_ids s' tbl = row_ids s tbl ++ [x] → x ∉ row_ids s tbl → grows tbl s s'.
Proof.
  intros Heq Hx. split.
  - intros Hnd. rewrite Heq. apply NoDup_app. split; [done|]. split.
    + intros y Hy Hy'. apply list_elem_of_singleton in Hy'. by subst.
    + apply NoDup_singleton.
  - intros y Hy. rewrite Heq. apply elem_of_app. by left.
Qed.

Lemma row_ids_save_row tbl r s :
  row_ids (save_row tbl r s) tbl = row_ids s tbl ∨
  (row_ids (save_row tbl r s) tbl = row_ids s tbl ++ [r !! "id"] ∧
   r !! "id" ∉ row_ids s tbl).
Proof.
  unfold row_ids, save_row. rewrite table_tick, table_set_table.
  destruct (decide (tbl = tbl)); [|done].
  destruct (existsb _ (table s tbl)) eqn:He.
  - left. rewrite List.map_map. apply map_ext. intros x.
    destruct (bool_decide (x !! "id" = r !! "id")) eqn:Hx; [|done].
    apply bool_decide_eq_true in Hx. unfold stamp_updated.
    by rewrite lookup_insert_ne.
  - right. split.
    + rewrite List.map_app. simpl. unfold stamp_updated. by rewrite lookup_insert_ne.
    + intros Hin. apply list_elem_of_In, in_map_iff in Hin as (x & Hx & Hin).
      assert (existsb (λ x : row, bool_decide (x !! "id" = r !! "id")) (table s tbl) = true)
        as Ht; [|congruence].
      apply existsb_exists. exists x. split; [done|]. by apply bool_decide_eq_true.
Qed.

Lemma grows_save_row tbl r s : grows tbl s (save_row tbl r s).
Proof.
  destruct (row_ids_save_row tbl r s) as [Heq | [Heq Hx]].
  - unfold grows. rewrite Heq. by split.
  - by apply (grows_append tbl s _ (r !! "id")).
Qed.

Lemma grows_save_row_any tbl ModelCls r s : grows tbl s (save_row ModelCls r s).
Proof.
  destruct (decide (ModelCls = tbl)) as [->|Hne]; [apply grows_save_row|].
  by apply grows_keeps, keeps_save_row.
Qed.

Lemma grows_replace_all tbl person m q objects s :
  rm_table m ≠ tbl → qs_table q ≠ tbl →
  grows tbl s (replace_all person m q objects s).
Proof.
  intros H1 H2. unfold replace_all.
  etrans; [|apply grows_save_row_any].
  apply grows_keeps. unfold keeps. rewrite table_create_all_ne by done.
  destruct (bool_decide _); [by apply keeps_qs_delete | done].
Qed.

Lemma matches_id v (r : row) : matches {[ "id" := v ]} r = true ↔ r !! "id" = Some v.
Proof.
  rewrite matches_true. split.
  - intros H. apply H. apply lookup_singleton_eq.
  - intros H k w Hk. apply lookup_singleton_Some in Hk as [<- <-]. done.
Qed.

Lemma kwargs_of_id (fields : row) v :
  fields !! "id" = Some v → kwargs_of fields ["id"] = {[ "id" := v ]}.
Proof. intros H. unfold kwargs_of. simpl. by rewrite H. Qed.

(** The upsert by id keeps the ids that are stored and adds at most a new
    one. *)
Lemma grows_get_update_or_create ModelCls fields v :
  fields !! "id" = Some v →
  respects (grows ModelCls) (get_update_or_create ModelCls fields ["id"]).
Proof.
  intros Hid st.
  rewrite get_update_or_create_run by (repeat constructor; eauto).
  rewrite (kwargs_of_id fields v Hid).
  destruct (lookup_rows (db st) ModelCls {[ "id" := v ]}) as [|r [|r' rs]] eqn:Hrows.
  - cbn [snd db].
    apply (grows_append ModelCls _ _ (Some v)).
    + unfold row_ids. rewrite table_tick, table_insert_row.
      destruct (decide (ModelCls = ModelCls)); [|done].
      rewrite List.map_app. simpl. unfold stamp_created, new_row. rewrite Hid.
      rewrite !lookup_insert_ne by done. by rewrite Hid.
    + intros Hin. apply list_elem_of_In, in_map_iff in Hin as (x & Hx & Hin).
      assert (In x (lookup_rows (db st) ModelCls {[ "id" := v ]})) as Hx'.
      { apply filter_In. split; [done|]. by apply matches_id. }
      by rewrite Hrows in Hx'.
  - destruct (set_differing fields r) as [[obj [|]]|e|]; cbn [snd db];
      [apply grows_save_row | reflexivity..].
  - reflexivity.
Qed.

Lemma respects_bind_post (R : relation store) `{!PreOrder R} {A B}
    (m : M A) (k : A → M B) (P : A → Prop) :
  (∀ st a st', m st = (Ok a, st') → P a) →
  respects R m → (∀ a, P a → respects R (k a)) → respects R (bind m k).
Proof.
  intros HP Hm Hk st. unfold bind. specialize (Hm st). specialize (HP st).
  destruct (m st) as [[a|e|] st1]; simpl in *; [|done|done].
  etrans; [exact Hm | by apply Hk, (HP a st1)].
Qed.

Lemma grows_sub tbl ModelCls p fieldname objects s :
  rm_table (related ModelCls p fieldname) ≠ tbl →
  grows tbl s
    (replace_all (Instance ModelCls p) (getattr (Instance ModelCls p) fieldname)
       (read_view (Instance ModelCls p) fieldname None) objects s).
Proof. intros H. by apply grows_replace_all. Qed.

Ltac r_sub R :=
  refine (respects_bind _ _ _ _ _);
  [apply (respects_update_subobjects R); intros ?; by apply grows_sub
  |intros ?; cbv beta].

Lemma grows_load_person ld data : respects (grows Person) (load_person ld data).
Proof.
  unfold load_person.
  refine (respects_bind_post _ _ _ (λ fields, is_Some (fields !! "id")) _ _ _).
  { intros st fields st'. apply person_fields_id. }
  { r_pure. apply db_pure_person_fields. }
  intros fields [v Hid].
  r_bind; [by apply (grows_get_update_or_create Person fields v)|].
  cbn [fst snd].
  r_sub (grows Person). r_sub (grows Person). r_sub (grows Person).
  r_sub (grows Person). r_sub (grows Person).
  r_bind; [r_pure; apply db_pure_person_memberships|].
  r_bind; [|r_pure; apply db_pure_ret].
  apply (respects_update_subobjects (grows Person)). intros s.
  by apply grows_replace_all.
Qed.

Lemma db_pure_org_parent data : db_pure (org_parent data).
Proof. unfold org_parent. db_pure. Qed.

Lemma db_pure_org_fields data parent : db_pure (org_fields data parent).
Proof. unfold org_fields. db_pure. Qed.

Lemma db_pure_org_membership role : db_pure (org_membership role).
Proof. unfold org_membership. db_pure. Qed.

Lemma db_pure_org_memberships roles : db_pure (org_memberships roles).
Proof.
  induction roles as [|r rs IH]; simpl; [apply db_pure_ret|].
  apply db_pure_bind; [apply db_pure_org_membership | intros m].
  apply db_pure_bind; [done | intros ms; apply db_pure_ret].
Qed.

Lemma grows_load_org data : respects (grows Organization) (load_org data).
Proof.
  unfold load_org.
  r_bind; [r_pure; apply db_pure_org_parent|].
  refine (respects_bind_post _ _ _ (λ fields, is_Some (fields !! "id")) _ _ _).
  { intros st fields st'. apply org_fields_id. }
  { r_pure. apply db_pure_org_fields. }
  intros fields [v Hid].
  r_bind; [by apply (grows_get_update_or_create Organization fields v)|].
  cbn [fst snd].
  r_sub (grows Organization). r_sub (grows Organization).
  r_bind; [r_pure; apply db_pure_org_memberships|].
  r_sub (grows Organization).
  r_pure. apply db_pure_ret.
Qed.

Lemma respects_load_all (R : relation store) `{!PreOrder R} load_func all_data acc :
  (∀ data, respects R (load_func data)) →
  respects R (load_all load_func all_data acc).
Proof.
  intros Hl. revert acc. induction all_data as [|[data filename] rest IH]; intros acc; simpl.
  - r_pure. apply db_pure_ret.
  - r_bind; [r_pure; apply db_pure_getitem|].
    r_bind; [apply Hl|]. apply IH.
Qed.

(** ** Merges and the gate *)

Lemma state_pure_bind {A B} (m : M A) (k : A → M B) :
  state_pure m → (∀ a, state_pure (k a)) → state_pure (bind m k).
Proof.
  intros Hm Hk st. unfold bind. specialize (Hm st).
  destruct (m st) as [[a|e|] st1]; simpl in *; subst; [apply Hk|done|done].
Qed.

Lemma state_pure_try_except {A} (m : M A) handler :
  state_pure m → (∀ e h, handler e = Some h → state_pure h) →
  state_pure (try_except m handler).
Proof.
  intros Hm Hh st. unfold try_except. specialize (Hm st).
  destruct (m st) as [[a|e|] st1]; simpl in *; subst; [done| |done].
  destruct (handler e) as [h|] eqn:He; [|done]. by apply (Hh _ _ He).
Qed.

Lemma state_pure_get_by_identifier ModelCls missing_id :
  state_pure (get_by_identifier ModelCls missing_id).
Proof. intros st. unfold get_by_identifier. by destruct (flat_map _ _) as [|? [|]]. Qed.

Lemma find_merges_state ModelCls missing_ids st :
  (find_merges ModelCls missing_ids st).2 = st.
Proof.
  revert st. change (state_pure (find_merges ModelCls missing_ids)).
  induction missing_ids as [|x xs IH]; simpl; [done|].
  apply state_pure_bind.
  - apply state_pure_try_except.
    + apply state_pure_bind; [apply state_pure_get_by_identifier | done].
    + intros e h. unfold except. destruct (bool_decide _); [|done]. by intros [= <-].
  - intros found. apply state_pure_bind; [done | done].
Qed.

Lemma NoDup_map_filter {A B} (f : A → B) (P : A → bool) (l : list A) :
  NoDup (List.map f l) → NoDup (List.map f (List.filter P l)).
Proof.
  induction l as [|x l IH]; simpl; [done|].
  rewrite NoDup_cons. intros [Hx Hnd]. destruct (P x); simpl; [|auto].
  apply NoDup_cons. split; [|auto].
  intros Hin. apply Hx. apply list_elem_of_In, in_map_iff in Hin as (y & Hy & Hin).
  apply list_elem_of_In, in_map_iff. exists y. split; [done|].
  apply filter_In in Hin. tauto.
Qed.

Lemma all_stored_delete s tbl missing_ids old :
  all_stored s tbl missing_ids →
  all_stored (qs_delete (qs_filter {[ "id" := old ]} (default_manager tbl)) s) tbl
    (List.filter (λ x, negb (bool_decide (x = old))) missing_ids).
Proof.
  intros [Hnd Hin]. unfold all_stored, row_ids.
  rewrite table_qs_delete. simpl.
  destruct (decide (tbl = tbl)); [|done]. split.
  - by apply NoDup_map_filter.
  - intros id Hid. apply list_elem_of_In, filter_In in Hid as [Hid Hne].
    apply negb_true_iff, bool_decide_eq_false in Hne.
    apply list_elem_of_In, Hin, list_elem_of_In, in_map_iff in Hid as (r & Hr & Hrin).
    apply list_elem_of_In, in_map_iff. exists r. split; [done|].
    apply filter_In. split; [done|].
    unfold visible. simpl. rewrite andb_true_r. apply negb_true_iff.
    destruct (matches {[ "id" := old ]} r) eqn:Hm; [|done].
    apply matches_id in Hm. congruence.
Qed.

Lemma all_stored_keeps s s' tbl missing_ids :
  keeps tbl s s' → all_stored s tbl missing_ids → all_stored s' tbl missing_ids.
Proof. unfold keeps, all_stored, row_ids. by intros ->. Qed.

Lemma apply_merges_stored type ModelCls merged missing_ids st missing_ids' st' :
  ModelCls ≠ BillSponsorship →
  apply_merges type ModelCls merged missing_ids st = (Ok missing_ids', st') →
  all_stored (db st) ModelCls missing_ids →
  all_stored (db st') ModelCls missing_ids'.
Proof.
  intros Hne. revert missing_ids st.
  induction merged as [|[old new] merged IH]; intros missing_ids st; simpl.
  - by intros [= <- <-].
  - intros Hrun Hst.
    apply bind_Ok_inv in Hrun as ([] & s1 & H1 & Hrun).
    apply bind_Ok_inv in Hrun as ([] & s2 & H2 & Hrun).
    apply (IH _ _ Hrun).
    destruct (bool_decide (type = "person")); [|done].
    injection H1 as <-. injection H2 as <-. cbn [db].
    apply all_stored_delete.
    apply (all_stored_keeps (db st)); [|done].
    unfold keeps, qs_update. rewrite table_set_table. simpl.
    by destruct (decide (BillSponsorship = ModelCls)).
Qed.

(** With the primary key in place, an id that is stored names one row. *)
Lemma lookup_rows_stored s tbl id :
  NoDup (row_ids s tbl) → Some id ∈ row_ids s tbl →
  ∃ r, lookup_rows s tbl {[ "id" := id ]} = [r].
Proof.
  unfold row_ids, lookup_rows.
  induction (table s tbl) as [|x l IH]; simpl; [by intros _ H; apply elem_of_nil in H|].
  rewrite NoDup_cons. intros [Hx Hnd] Hin.
  destruct (matches {[ "id" := id ]} x) eqn:Hm.
  - apply matches_id in Hm. exists x. f_equal.
    rewrite Hm in Hx. clear -Hx. induction l as [|y l IH]; simpl in *; [done|].
    rewrite not_elem_of_cons in Hx. destruct Hx as [Hy Hx].
    destruct (matches {[ "id" := id ]} y) eqn:Hmy; [|auto].
    apply matches_id in Hmy. congruence.
  - apply elem_of_cons in Hin as [Hin | Hin]; [|auto].
    symmetry in Hin. apply matches_id in Hin. congruence.
Qed.

Lemma gate_report ModelCls missing_ids st :
  all_stored (db st) ModelCls missing_ids →
  for_each missing_ids (λ id, mobj <- objects_get ModelCls {[ "id" := id ]} ;; ret tt) st
  = (Ok tt, st).
Proof.
  intros [Hnd Hin]. induction missing_ids as [|id ids IH]; simpl; [done|].
  destruct (lookup_rows_stored (db st) ModelCls id Hnd) as (r & Hr).
  { apply Hin. by left. }
  unfold bind at 1 2. rewrite objects_get_run, Hr. unfold ret at 1.
  apply IH. intros id' Hid'. apply Hin. by right.
Qed.

Lemma purge_gate_run ModelCls missing_ids purge st :
  missing_ids ≠ [] →
  all_stored (db st) ModelCls missing_ids →
  purge_gate ModelCls missing_ids purge st
  = if purge
    then (Ok tt,
          {| db := qs_delete (qs_filter_in "id" missing_ids (default_manager ModelCls))
                     (db st);
             cache := cache st |})
    else (Raise CancelTransaction, st).
Proof.
  intros Hne Hst. unfold purge_gate.
  destruct missing_ids as [|id ids]; [done|].
  destruct purge; cbn [negb]; [done|].
  by rewrite (bind_Ok _ _ _ _ _ (gate_report ModelCls (id :: ids) st Hst)).
Qed.

Lemma person_ids_stored jurisdiction_id s id :
  id ∈ person_ids jurisdiction_id s → ∃ r, r ∈ table s Person ∧ pk r = id.
Proof.
  unfold person_ids. rewrite elem_of_remove_dups.
  intros Hin. apply list_elem_of_In, in_map_iff in Hin as (r & Hr & Hin).
  apply filter_In in Hin as [Hin _]. exists r. by rewrite list_elem_of_In.
Qed.

Lemma committee_ids_stored jurisdiction_id s id :
  id ∈ committee_ids jurisdiction_id s → ∃ r, r ∈ table s Organization ∧ pk r = id.
Proof.
  unfold committee_ids. rewrite elem_of_remove_dups.
  intros Hin. apply list_elem_of_In, in_map_iff in Hin as (r & Hr & Hin).
  unfold qs_rows in Hin. apply filter_In in Hin as [Hin _].
  exists r. by rewrite list_elem_of_In.
Qed.

Lemma primary_key_stored s tbl r :
  primary_key s tbl → r ∈ table s tbl → Some (pk r) ∈ row_ids s tbl.
Proof.
  intros [_ Hid] Hr. destruct (Hid r Hr) as [v Hv].
  unfold pk. rewrite Hv. simpl. rewrite <- Hv.
  unfold row_ids. apply list_elem_of_In, in_map_iff. exists r.
  by rewrite <- list_elem_of_In.
Qed.

(** The ids that are still missing after the merges name stored rows. *)
Lemma merge_resolution_stored ld fuel files type jurisdiction_id st
    loaded ModelCls missing_ids st2 :
  merge_resolution ld fuel files type jurisdiction_id st
  = (Ok (loaded, ModelCls, missing_ids), st2) →
  primary_key (db st) ModelCls →
  all_stored (db st2) ModelCls missing_ids.
Proof.
  unfold merge_resolution. intros Hrun Hpk.
  apply bind_Ok_inv in Hrun as ([[existing T] load_func] & s1 & Hsetup & Hrun).
  apply bind_Ok_inv in Hrun as (all_data & s2 & Hsort & Hrun).
  apply bind_Ok_inv in Hrun as (loaded' & s3 & Hload & Hrun).
  apply bind_Ok_inv in Hrun as (merged & s4 & Hmerge & Hrun).
  apply bind_Ok_inv in Hrun as (missing' & s5 & Hmiss & Hrun).
  cbn [fst snd] in *. injection Hrun as -> -> -> ->.
  assert (s2 = s1) as ->.
  { destruct (bool_decide (type = "organization")).
    - unfold lift_result in Hsort. by injection Hsort.
    - by injection Hsort. }
  assert (s4 = s3) as ->.
  { pose proof (find_merges_state ModelCls (list_difference existing (ids loaded)) s3) as H.
    by rewrite Hmerge in H. }
  assert (s1 = st ∧ ModelCls ≠ BillSponsorship ∧
          (∀ data, respects (grows ModelCls) (load_func data)) ∧
          ∀ id, id ∈ existing → ∃ r, r ∈ table (db st) ModelCls ∧ pk r = id)
    as (-> & Hbs & Hgrows & Hex).
  { destruct (bool_decide (type = "person")).
    - injection Hsetup as <- <- <- <-. split; [done|]. split; [done|].
      split; [intros; apply grows_load_person | apply person_ids_stored].
    - destruct (bool_decide (type = "organization")); [|done].
      injection Hsetup as <- <- <- <-. split; [done|]. split; [done|].
      split; [intros; apply grows_load_org | apply committee_ids_stored]. }
  assert (all_stored (db s3) ModelCls (list_difference existing (ids loaded))) as Hst.
  { pose proof (respects_load_all (grows ModelCls) load_func all_data no_totals Hgrows st)
      as [Hnd Hin].
    rewrite Hload in Hnd, Hin. cbn [snd] in *. split; [apply Hnd, Hpk|].
    intros id Hid. apply list_elem_of_difference in Hid as [Hid _].
    destruct (Hex id Hid) as (r & Hr & <-).
    by apply Hin, primary_key_stored. }
  destruct merged as [|m merged].
  - by injection Hmiss as <- <-.
  - by apply (apply_merges_stored type ModelCls (m :: merged) _ s3 _ _ Hbs Hmiss).
Qed.

Lemma visible_filter_in s tbl missing_ids r :
  visible s (qs_filter_in "id" missing_ids (default_manager tbl)) r
  = has_id_in missing_ids r.
Proof. unfold visible, has_id_in. simpl. apply andb_true_r. Qed.

(** [to_database], state by state. *)
Lemma for_each_app {A} (xs ys : list A) (body : A → M unit) st :
  for_each (xs ++ ys) body st = (for_each xs body ;;; for_each ys body) st.
Proof.
  revert st. induction xs as [|x xs IH]; intros st; simpl; [done|].
  rewrite bind_assoc. apply bind_congr. intros [] st'. apply IH.
Qed.

Lemma to_database_states ld metadata parties all_abbreviations jurisdiction_of
    person_files committee_files fuel abbreviations purge safe st :
  to_database ld metadata parties all_abbreviations jurisdiction_of person_files
    committee_files fuel abbreviations purge safe st
  = (create_parties parties ;;;
     for_each (effective_abbreviations all_abbreviations abbreviations)
       (sync_state ld metadata jurisdiction_of person_files committee_files
          fuel purge safe)) st.
Proof. reflexivity. Qed.

(** The run, from the state whose turn it is. *)
Lemma to_database_at ld metadata parties all_abbreviations jurisdiction_of
    person_files committee_files fuel abbreviations purge safe st synced abbr rest st1 :
  effective_abbreviations all_abbreviations abbreviations = synced ++ abbr :: rest →
  (create_parties parties ;;;
   for_each synced
     (sync_state ld metadata jurisdiction_of person_files committee_files fuel purge safe))
    st = (Ok tt, st1) →
  to_database ld metadata parties all_abbreviations jurisdiction_of person_files
    committee_files fuel abbreviations purge safe st
  = (sync_state ld metadata jurisdiction_of person_files committee_files fuel purge safe
       abbr ;;;
     for_each rest
       (sync_state ld metadata jurisdiction_of person_files committee_files fuel purge
          safe)) st1.
Proof.
  intros Habbr Hsynced. rewrite to_database_states, Habbr.
  apply bind_Ok_inv in Hsynced as ([] & s0 & Hparties & Hsynced).
  rewrite (bind_Ok _ _ _ _ _ Hparties). rewrite for_each_app.
  rewrite (bind_Ok _ _ _ _ _ Hsynced). reflexivity.
Qed.

(** The transaction of a state, around the call of [load_directory] for a
    type. *)
Lemma state_transaction_at ld metadata jurisdiction_of person_files committee_files
    fuel purge safe type abbr st :
  type = "person" ∨ type = "organization" →
  state_transaction ld metadata jurisdiction_of person_files committee_files fuel purge
    safe abbr st
  = (steps_before ld metadata jurisdiction_of person_files fuel purge type abbr ;;;
     load_directory ld fuel (directory_files person_files committee_files type abbr) type
       (jurisdiction_of abbr) purge ;;;
     steps_after ld jurisdiction_of committee_files fuel purge safe type abbr) st.
Proof.
  intros [-> | ->]; unfold state_transaction, steps_before, steps_after, directory_files.
  - rewrite !(bool_decide_eq_true_2 ("person" = "person")) by done.
    unfold bind, ret.
    destruct (create_juris_orgs_posts _ _ st) as [[[]| |] s1]; [|done|done].
    destruct (load_directory _ _ _ "person" _ _ s1) as [[?| |] s2]; [|done|done].
    by destruct (load_directory _ _ _ "organization" _ _ s2) as [[?| |] s3].
  - rewrite !(bool_decide_eq_false_2 ("organization" = "person")) by done.
    unfold bind, ret.
    destruct (create_juris_orgs_posts _ _ st) as [[[]| |] s1]; [|done|done].
    destruct (load_directory _ _ _ "person" _ _ s1) as [[?| |] s2]; [|done|done].
    by destruct (load_directory _ _ _ "organization" _ _ s2) as [[?| |] s3].
Qed.

Lemma merge_resolution_type ld fuel files type jurisdiction_id st x st' :
  merge_resolution ld fuel files type jurisdiction_id st = (Ok x, st') →
  type = "person" ∨ type = "organization".
Proof.
  unfold merge_resolution. intros Hrun.
  apply bind_Ok_inv in Hrun as (setup & s1 & Hsetup & _).
  destruct (bool_decide (type = "person")) eqn:Hp;
    [by left; apply bool_decide_eq_true in Hp|].
  destruct (bool_decide (type = "organization")) eqn:Ho;
    [by right; apply bool_decide_eq_true in Ho | done].
Qed.

(** The ids of a table when the rows that carry one of [missing_ids] are
    taken out. *)
Lemma row_ids_without (rows : list row) (missing_ids : list value) (x : option value) :
  x ∈ List.map (λ r : row, r !! "id")
        (List.filter (λ r, negb (has_id_in missing_ids r)) rows)
  ↔ x ∈ List.map (λ r : row, r !! "id") rows ∧ ∀ id, id ∈ missing_ids → x ≠ Some id.
Proof.
  rewrite !list_elem_of_In, !in_map_iff. split.
  - intros (r & <- & Hr). apply filter_In in Hr as [Hr Hb]. split; [by exists r|].
    intros id Hid Heq. apply negb_true_iff in Hb. unfold has_id_in in Hb.
    rewrite Heq in Hb. by rewrite bool_decide_eq_true_2 in Hb.
  - intros [(r & <- & Hr) Hx]. exists r. split; [done|]. apply filter_In.
    split; [done|]. apply negb_true_iff. unfold has_id_in.
    destruct (r !! "id") as [v|] eqn:Hv; [|done].
    apply bool_decide_eq_false_2. intros Hin. by apply (Hx v).
Qed.


Lemma primary_keyb_sound s tbl : primary_keyb s tbl = true → primary_key s tbl.
Proof.
  unfold primary_keyb, primary_key. rewrite andb_true_iff, bool_decide_eq_true.
  intros [Hnd Hall]. split; [done|]. intros r Hr.
  rewrite forallb_forall in Hall.
  apply list_elem_of_In, Hall, bool_decide_eq_true in Hr. done.
Qed.


(** ** Triples *)

Lemma hoare_ret {A} (P : state → Prop) (a : A) (Q : A → state → Prop) E :
  (∀ st, P st → Q a st) → hoare P (ret a) Q E.
Proof. intros H st HP. by apply H. Qed.

Lemma hoare_raise {A} (P : state → Prop) e (Q : A → state → Prop) (E : state → Prop) :
  (∀ st, P st → E st) → hoare P (raise e) Q E.
Proof. intros H st HP. by apply H. Qed.

Lemma hoare_bind {A B} (P : state → Prop) (m : M A) (k : A → M B)
    (Q1 : A → state → Prop) (Q : B → state → Prop) E :
  hoare P m Q1 E → (∀ a, hoare (Q1 a) (k a) Q E) → hoare P (bind m k) Q E.
Proof.
  intros Hm Hk st HP. unfold bind. specialize (Hm st HP).
  destruct (m st) as [[a|e|] st1]; [by apply Hk | done | done].
Qed.

Lemma hoare_try_except {A} (P : state → Prop) (m : M A) handler
    (Q : A → state → Prop) (E1 E : state → Prop) :
  hoare P m Q E1 → (∀ st, E1 st → E st) →
  (∀ e h, handler e = Some h → hoare E1 h Q E) →
  hoare P (try_except m handler) Q E.
Proof.
  intros Hm HE Hh st HP. unfold try_except. specialize (Hm st HP).
  destruct (m st) as [[a|e|] st1]; [done| |by apply HE].
  destruct (handler e) as [h|] eqn:He; [by apply (Hh e h He) | by apply HE].
Qed.

Lemma hoare_weaken {A} (P P' : state → Prop) (m : M A) (Q Q' : A → state → Prop)
    (E E' : state → Prop) :
  hoare P' m Q' E' → (∀ st, P st → P' st) → (∀ a st, Q' a st → Q a st) →
  (∀ st, E' st → E st) → hoare P m Q E.
Proof.
  intros Hm HP HQ HE st Hst. specialize (Hm st (HP st Hst)).
  destruct (m st) as [[a|e|] st1]; auto.
Qed.

Lemma hoare_state_pure {A} (P : state → Prop) (m : M A) :
  state_pure m → hoare P m (λ _, P) P.
Proof.
  intros Hm st HP. specialize (Hm st).
  destruct (m st) as [[a|e|] st1]; simpl in Hm; by subst.
Qed.

Lemma state_pure_getitem d key : state_pure (getitem d key).
Proof. unfold getitem. by destruct (d !! key). Qed.

Lemma state_pure_qs_get q : state_pure (qs_get q).
Proof. intros st. unfold qs_get. by destruct (qs_rows (db st) q) as [|? [|]]. Qed.

(** ** [cached_lookup] under a cache that agrees with the database *)

Lemma cached_lookup_resolving s kwargs :
  hoare (resolving s) (cached_lookup Organization kwargs)
    (λ r st, resolving s st ∧ r ∈ table s Organization ∧ matches kwargs r = true)
    (resolving s).
Proof.
  intros st [Hdb Hco]. unfold cached_lookup.
  destruct (List.find _ (cache st)) as [e|] eqn:Hfind.
  - apply find_some in Hfind as [Hin Hkey].
    apply bool_decide_eq_true in Hkey. destruct e as [key r]. simpl in *. subst key.
    apply list_elem_of_In in Hin. destruct (Hco _ _ Hin) as [Hr Hm].
    split; [|by rewrite <- Hdb]. split; [done|].
    intros kw' r' Hin'. simpl in *. apply Hco.
    apply elem_of_cons in Hin' as [Heq | Hin']; [by injection Heq as -> ->|].
    apply list_elem_of_In, filter_In in Hin' as [Hin' _]. by apply list_elem_of_In.
  - rewrite objects_get_run.
    destruct (lookup_rows (db st) Organization kwargs) as [|r [|r' rs]] eqn:Hrows;
      [by split | | by split].
    assert (In r (lookup_rows (db st) Organization kwargs)) as Hr by (rewrite Hrows; by left).
    apply filter_In in Hr as [Hr Hm]. apply list_elem_of_In in Hr.
    split; [|by rewrite <- Hdb]. split; [done|].
    intros kw' r' Hin'. cbn [cache db] in *.
    apply subseteq_take in Hin'.
    apply elem_of_cons in Hin' as [Heq | Hi]; [by injection Heq as -> -> | by apply Hco].
Qed.

(** ** The memberships [load_person] resolves *)

Lemma party_membership_resolving s party :
  hoare (resolving s) (party_membership party)
    (λ m st, resolving s st ∧ of_non_committee s m) (resolving s).
Proof.
  unfold party_membership.
  eapply hoare_bind; [apply hoare_state_pure, state_pure_getitem|]. intros name.
  eapply hoare_bind.
  { eapply hoare_try_except; [apply cached_lookup_resolving | done |].
    intros e h. unfold except. destruct (bool_decide _); [|done].
    intros [= <-]. by apply hoare_raise. }
  intros org. apply hoare_ret. intros st (Hres & Horg & Hm).
  split; [done|]. exists org, "party". split; [done|].
  split; [apply lookup_insert_eq|]. split; [|done].
  apply (proj1 (matches_true _ _) Hm). apply lookup_insert_eq.
Qed.

Lemma chamber_membership_resolving ld s role t :
  t ≠ "committee" →
  hoare (resolving s) (chamber_membership ld role t)
    (λ o st, resolving s st ∧ ∀ m, o = Some m → of_non_committee s m) (resolving s).
Proof.
  intros Ht. unfold chamber_membership.
  eapply (hoare_bind _ _ _
            (λ found st, resolving s st ∧
               ∀ org post, found = Some (org, post) →
                 org ∈ table s Organization ∧
                 org !! "classification" = Some (VStr t))).
  - eapply hoare_try_except; [| intros st H; exact H |].
    + eapply hoare_bind; [apply hoare_state_pure, state_pure_getitem|]. intros jurisdiction.
      eapply hoare_bind; [apply cached_lookup_resolving|]. intros org.
      eapply (hoare_bind _ _ _
                (λ _ st, resolving s st ∧ org ∈ table s Organization ∧
                         org !! "classification" = Some (VStr t))).
      { intros st (Hres & Horg & Hm). unfold getitem.
        pose proof (proj1 (matches_true _ _) Hm) as Hm'.
        destruct (role !! "district"); simpl; [|done].
        split; [done|]. split; [done|]. apply Hm'. apply lookup_insert_eq. }
      intros district.
      eapply (hoare_bind _ _ _
                (λ _ st, resolving s st ∧ org ∈ table s Organization ∧
                         org !! "classification" = Some (VStr t))).
      { intros st (Hres & Horg & Hc).
        pose proof (state_pure_qs_get
                      (qs_filter {[ "label" := district ]}
                         (all (related Organization org "posts"))) st) as Hp.
        unfold posts_get.
        destruct (qs_get _ st) as [[post| |] st1]; simpl in Hp; by subst. }
      intros post. apply hoare_ret. intros st (Hres & Horg & Hc).
      split; [done|]. by intros org' post' [= <- <-].
    + intros e h He.
      destruct (bool_decide (e = DoesNotExist Organization));
        [injection He as <-; by apply hoare_raise|].
      destruct (bool_decide (e = DoesNotExist Post)); [|done].
      injection He as <-.
      eapply hoare_bind; [apply hoare_state_pure, state_pure_getitem|]. intros jurisdiction.
      eapply hoare_bind; [apply hoare_state_pure, state_pure_getitem|]. intros district.
      destruct (ld jurisdiction !! t) as [lds|]; [|by apply hoare_raise].
      destruct (contains lds district); [|by apply hoare_raise].
      apply hoare_ret. intros st Hres. split; [done|]. done.
  - intros [[org post]|].
    + apply hoare_ret. intros st (Hres & Hf). split; [done|].
      intros m [= <-]. destruct (Hf org post eq_refl) as [Horg Hc].
      exists org, t. split; [done|]. split; [apply lookup_insert_eq | done].
    + apply hoare_ret. intros st (Hres & _). split; [done|]. done.
Qed.

Lemma role_membership_resolving ld s role :
  hoare (resolving s) (role_membership ld role)
    (λ o st, resolving s st ∧ ∀ m, o = Some m → of_non_committee s m) (resolving s).
Proof.
  unfold role_membership.
  eapply hoare_bind; [apply hoare_state_pure, state_pure_getitem|]. intros type.
  destruct (contains _ type) eqn:Hc; [|by apply hoare_raise].
  destruct type as [|t| | |]; try by apply hoare_raise.
  apply chamber_membership_resolving.
  unfold contains in Hc. apply bool_decide_eq_true in Hc.
  rewrite !elem_of_cons, elem_of_nil in Hc.
  intros ->. destruct Hc as [?|[?|[?|[]]]]; discriminate.
Qed.

Lemma party_memberships_resolving s parties :
  hoare (resolving s) (party_memberships parties)
    (λ ms st, resolving s st ∧ Forall (of_non_committee s) ms) (resolving s).
Proof.
  induction parties as [|p ps IH]; simpl.
  - apply hoare_ret. intros st H. by split.
  - eapply hoare_bind; [apply party_membership_resolving|]. intros m.
    eapply (hoare_bind _ _ _
              (λ ms st, resolving s st ∧ of_non_committee s m ∧
                        Forall (of_non_committee s) ms)).
    + intros st [Hres Hm]. specialize (IH st Hres).
      destruct (party_memberships ps st) as [[ms| |] st1]; [|done|done].
      destruct IH as [H1 H2]. split; [exact H1|]. split; [exact Hm | exact H2].
    + intros ms. apply hoare_ret. intros st (Hres & Hm & Hms).
      split; [done|]. by constructor.
Qed.

Lemma role_memberships_resolving ld s roles :
  hoare (resolving s) (role_memberships ld roles)
    (λ ms st, resolving s st ∧ Forall (of_non_committee s) ms) (resolving s).
Proof.
  induction roles as [|r rs IH]; simpl.
  - apply hoare_ret. intros st H. by split.
  - eapply hoare_bind; [apply role_membership_resolving|]. intros o.
    eapply (hoare_bind _ _ _
              (λ ms st, resolving s st ∧ (∀ m, o = Some m → of_non_committee s m) ∧
                        Forall (of_non_committee s) ms)).
    + intros st [Hres Hm]. specialize (IH st Hres).
      destruct (role_memberships ld rs st) as [[ms| |] st1]; [|done|done].
      destruct IH as [H1 H2]. split; [exact H1|]. split; [exact Hm | exact H2].
    + intros ms. apply hoare_ret. intros st (Hres & Hm & Hms).
      split; [done|]. destruct o as [m|]; [|done]. constructor; [by apply Hm | done].
Qed.

Lemma person_memberships_resolving ld s data :
  hoare (resolving s) (person_memberships ld data)
    (λ ms st, resolving s st ∧ Forall (of_non_committee s) ms) (resolving s).
Proof.
  unfold person_memberships.
  eapply hoare_bind; [apply party_memberships_resolving|]. intros ps.
  eapply (hoare_bind _ _ _
            (λ rs st, resolving s st ∧ Forall (of_non_committee s) ps ∧
                      Forall (of_non_committee s) rs)).
  - intros st [Hres Hps].
    pose proof (role_memberships_resolving ld s (get_list data "roles") st Hres) as H.
    destruct (role_memberships ld _ st) as [[rs| |] st1]; [|done|done].
    destruct H as [H1 H2]. split; [exact H1|]. split; [exact Hps | exact H2].
  - intros rs. apply hoare_ret. intros st (Hres & Hps & Hrs).
    split; [done|]. by apply Forall_app.
Qed.

(** ** Computations that leave the cache alone *)

Lemma cache_pure_bind {A B} (m : M A) (k : A → M B) :
  cache_pure m → (∀ a, cache_pure (k a)) → cache_pure (bind m k).
Proof.
  intros Hm Hk st. unfold bind. specialize (Hm st).
  destruct (m st) as [[a|e|] st1]; simpl in *; [|done|done].
  by rewrite Hk.
Qed.

Lemma cache_pure_try_except {A} (m : M A) handler :
  cache_pure m → (∀ e h, handler e = Some h → cache_pure h) →
  cache_pure (try_except m handler).
Proof.
  intros Hm Hh st. unfold try_except. specialize (Hm st).
  destruct (m st) as [[a|e|] st1]; simpl in *; [done| |done].
  destruct (handler e) as [h|] eqn:He; [|done].
  by rewrite (Hh _ _ He).
Qed.

Lemma cache_pure_state_pure {A} (m : M A) : state_pure m → cache_pure m.
Proof. intros H st. by rewrite H. Qed.

Lemma cache_pure_write_db f : cache_pure (write_db f).
Proof. done. Qed.

Lemma state_pure_lookup_kwargs data lookup_keys : state_pure (lookup_kwargs data lookup_keys).
Proof.
  induction lookup_keys as [|k ks IH]; simpl; [done|].
  destruct (data !! k); [|done].
  apply state_pure_bind; [done | done].
Qed.

Lemma cache_pure_get_update_or_create ModelCls data lookup_keys :
  cache_pure (get_update_or_create ModelCls data lookup_keys).
Proof.
  unfold get_update_or_create.
  apply cache_pure_bind; [apply cache_pure_state_pure, state_pure_lookup_kwargs|].
  intros kwargs. apply cache_pure_try_except.
  - apply cache_pure_bind; [apply cache_pure_state_pure, state_pure_qs_get|].
    intros obj. apply cache_pure_bind; [done|].
    intros obj_updated. apply cache_pure_bind; [|done].
    by destruct obj_updated.2.
  - intros e h. unfold except. destruct (bool_decide _); [|done].
    intros [= <-]. apply cache_pure_bind; [done | done].
Qed.

Lemma cache_pure_update_subobjects person fieldname objects read_manager :
  cache_pure (update_subobjects person fieldname objects read_manager).
Proof. intros st. rewrite update_subobjects_run. by destruct (differs _ _ _). Qed.

Lemma state_pure_person_fields data : state_pure (person_fields data).
Proof. intros st. apply person_fields_state. Qed.

(** ** Committee memberships under a cache that agrees with the database *)

Lemma committee_invariant_frame {A} st0 (m : M A) :
  respects (keeps Organization) m → respects (keeps Membership) m → cache_pure m →
  hoare (committee_invariant st0) m (λ _, committee_invariant st0)
    (committee_invariant st0).
Proof.
  intros Ho Hm Hc st (Hco & Horg & Hcm).
  specialize (Ho st). specialize (Hm st). specialize (Hc st).
  unfold keeps in Ho, Hm.
  assert (committee_invariant st0 (m st).2) as H.
  { split; [|split].
    - intros kw r Hin. rewrite Hc in Hin. rewrite Ho. by apply Hco.
    - by rewrite Ho.
    - intros person_id. by rewrite Hm. }
  by destruct (m st) as [[a|e|] st1].
Qed.

Lemma primary_key_unique s tbl o o' :
  primary_key s tbl → o ∈ table s tbl → o' ∈ table s tbl → pk o = pk o' → o = o'.
Proof.
  intros [Hnd Hid] Ho Ho' Hpk.
  destruct (Hid o Ho) as [v Hv]. destruct (Hid o' Ho') as [v' Hv'].
  unfold pk in Hpk. rewrite Hv, Hv' in Hpk. simpl in Hpk. subst v'.
  unfold row_ids in Hnd. clear Hid. revert Hnd Ho Ho'.
  induction (table s tbl) as [|x l IH]; simpl; [by intros _ H; apply elem_of_nil in H|].
  rewrite NoDup_cons. intros [Hx Hnd] Ho Ho'.
  apply elem_of_cons in Ho as [-> | Ho]; apply elem_of_cons in Ho' as [-> | Ho'].
  - done.
  - destruct Hx. rewrite Hv, <- Hv'. apply list_elem_of_In, in_map.
    by apply list_elem_of_In.
  - destruct Hx. rewrite Hv', <- Hv. apply list_elem_of_In, in_map.
    by apply list_elem_of_In.
  - by apply IH.
Qed.

(** A row made of a membership of a non-committee is no committee
    membership. *)
Lemma created_not_committee s m obj r person_id :
  primary_key s Organization → rm_fk m ≠ "organization" →
  of_non_committee s obj → created_from m obj r →
  committee_membership s person_id r = false.
Proof.
  intros Hpk Hfk (org & c & Horg & Hobj & Hcls & Hc) [_ Hcr].
  unfold committee_membership. apply andb_false_iff. right.
  unfold related_matches.
  destruct (existsb _ _) eqn:He; [|done].
  apply existsb_exists in He as (o & Ho & Hb).
  apply andb_true_iff in Hb as [Hfk' Hm].
  apply bool_decide_eq_true in Hfk'.
  rewrite (Hcr "organization" (pk org)) in Hfk' by (by apply not_eq_sym || done).
  injection Hfk' as Hpkeq.
  assert (o = org) as ->.
  { apply (primary_key_unique s Organization); [done| by apply list_elem_of_In |done|done]. }
  pose proof (proj1 (matches_true _ _) Hm "classification" (VStr "committee")
                (lookup_singleton_eq _ _)) as Hcls'.
  congruence.
Qed.


Lemma primary_key_ext s s' tbl :
  table s' tbl = table s tbl → primary_key s tbl → primary_key s' tbl.
Proof. unfold primary_key, row_ids. by intros ->. Qed.

Lemma memberships_update_invariant st0 person memberships :
  i_model person = Person → primary_key (db st0) Organization →
  hoare (λ st, committee_invariant st0 st ∧
               Forall (of_non_committee (db st)) memberships)
    (update_subobjects person "memberships" memberships (Some (non_committee person)))
    (λ _, committee_invariant st0) (committee_invariant st0).
Proof.
  intros Hmodel Hpk st [(Hco & Horg & Hcm) Hms].
  rewrite update_subobjects_run.
  change (read_view person "memberships" (Some (non_committee person)))
    with (non_committee person).
  destruct (differs _ _ _); [|done].
  assert (rm_table (getattr person "memberships") = Membership) as Htbl.
  { unfold getattr, related. by rewrite bool_decide_eq_true_2. }
  assert (rm_fk (getattr person "memberships") = Person) as Hfk.
  { unfold getattr, related. rewrite bool_decide_eq_true_2 by done. exact Hmodel. }
  assert (keeps Organization (db st)
            (replace_all person (getattr person "memberships") (non_committee person)
               memberships (db st))) as Hkeep.
  { apply keeps_replace_all; [by rewrite Hmodel | by rewrite Htbl | done]. }
  unfold keeps in Hkeep.
  split; [|split]; cbn [db cache].
  - intros kw r Hin. cbn [db cache] in *. rewrite Hkeep. by apply Hco.
  - by rewrite Hkeep.
  - intros person_id. rewrite <- Hcm.
    destruct (replace_all_table person (getattr person "memberships")
                (non_committee person) memberships (db st)) as (created & Ht & Hcr).
    { by rewrite Htbl. }
    { by rewrite Htbl, Hmodel. }
    rewrite Htbl in Ht. rewrite Ht, List.filter_app.
    rewrite !(filter_ext _ _ (λ m, eq_sym (committee_membership_ext (db st0) (db st)
                                              person_id m Horg))).
    rewrite filter_committee_outside.
    assert (List.filter (committee_membership (db st) person_id) created = []) as ->;
      [|by rewrite app_nil_r].
    assert (primary_key (db st) Organization) as Hpk' by (by apply (primary_key_ext (db st0))).
    clear Ht Hkeep. induction Hcr as [|obj r objs rs Hc _ IH]; [done|].
    apply Forall_cons in Hms as [Hobj Hms]. simpl.
    rewrite (created_not_committee (db st) (getattr person "memberships") obj r person_id);
      [by apply IH | done | by rewrite Hfk | done | done].
Qed.

Lemma keeps_person_sub tbl p fieldname objects s :
  tbl = Organization ∨ tbl = Membership →
  fieldname ∈ ["other_names"; "links"; "sources"; "identifiers"; "contact_details"] →
  keeps tbl s
    (replace_all (Instance Person p) (getattr (Instance Person p) fieldname)
       (read_view (Instance Person p) fieldname None) objects s).
Proof.
  intros Ht Hf.
  apply keeps_replace_all; destruct Ht as [-> | ->]; try done;
    repeat (apply elem_of_cons in Hf as [-> | Hf]; [done|]); by apply elem_of_nil in Hf.
Qed.

Lemma load_person_committee_invariant ld data st0 :
  primary_key (db st0) Organization →
  hoare (committee_invariant st0) (load_person ld data)
    (λ _, committee_invariant st0) (committee_invariant st0).
Proof.
  intros Hpk. unfold load_person.
  eapply hoare_bind; [apply hoare_state_pure, state_pure_person_fields|]. intros fields.
  eapply hoare_bind.
  { apply committee_invariant_frame.
    - apply (respects_get_update_or_create (keeps Organization)).
      + intros r s. by apply keeps_save_row.
      + intros r s. unfold keeps. rewrite table_tick. by apply keeps_insert_row.
    - apply (respects_get_update_or_create (keeps Membership)).
      + intros r s. by apply keeps_save_row.
      + intros r s. unfold keeps. rewrite table_tick. by apply keeps_insert_row.
    - apply cache_pure_get_update_or_create. }
  intros r. cbn [fst snd].
  do 5 (eapply hoare_bind;
        [apply committee_invariant_frame;
         [apply (respects_update_subobjects (keeps Organization)); intros s;
            apply keeps_person_sub; [by left | set_solver]
         |apply (respects_update_subobjects (keeps Membership)); intros s;
            apply keeps_person_sub; [by right | set_solver]
         |apply cache_pure_update_subobjects]
        |intros ?]).
  eapply (hoare_bind _ _ _
            (λ ms st, committee_invariant st0 st ∧ Forall (of_non_committee (db st)) ms)).
  { intros st (Hco & Horg & Hcm).
    pose proof (person_memberships_resolving ld (db st) data st (conj eq_refl Hco)) as H.
    destruct (person_memberships ld data st) as [[ms| |] st1].
    - destruct H as [[Hdb Hco1] Hms]. rewrite Hdb. split; [|done].
      unfold committee_invariant. rewrite Hdb.
      split; [exact Hco1 | split; [exact Horg | exact Hcm]].
    - destruct H as [Hdb Hco1]. unfold committee_invariant. rewrite Hdb.
      split; [exact Hco1 | split; [exact Horg | exact Hcm]].
    - destruct H as [Hdb Hco1]. unfold committee_invariant. rewrite Hdb.
      split; [exact Hco1 | split; [exact Horg | exact Hcm]]. }
  intros ms.
  eapply hoare_bind; [by apply memberships_update_invariant|].
  intros u. by apply hoare_ret.
Qed.

Lemma cache_coherentb_sound st : cache_coherentb st = true → cache_coherent st.
Proof.
  unfold cache_coherentb, cache_coherent. rewrite forallb_forall.
  intros H kw r Hin. apply list_elem_of_In, H in Hin. cbn [fst snd] in Hin.
  apply orb_true_iff in Hin as [Hin | Hin].
  - apply negb_true_iff, bool_decide_eq_false in Hin. done.
  - apply andb_true_iff in Hin as [Hr Hm]. by apply bool_decide_eq_true in Hr.
Qed.

(** C8.  The read view of the person-side pass holds no committee
    membership, so the count, the match test and the delete of
    [update_subobjects] leave them out.  Whatever the record and the state,
    after [load_person] the organizations are as they were and the committee
    memberships of every person are still stored, unchanged and in place.
    When the cache of [cached_lookup] agrees with the database and the
    organizations have a primary key, no committee membership is added
    either: the committee memberships of every person are exactly the ones
    that were stored. *)
Theorem load_person_keeps_committee_memberships :
  (∀ s person m,
     m ∈ qs_rows s (non_committee person) →
     ∀ person_id, committee_membership s person_id m = false) ∧
  (∀ legacy_districts data st,
     table (db (load_person legacy_districts data st).2) Organization
     = table (db st) Organization ∧
     ∀ person_id,
       List.filter (committee_membership (db st) person_id) (table (db st) Membership)
       `prefix_of`
       List.filter (committee_membership (db st) person_id)
         (table (db (load_person legacy_districts data st).2) Membership)) ∧
  (∀ legacy_districts data st,
     cache_coherent st → primary_key (db st) Organization →
     ∀ person_id,
       List.filter (committee_membership (db st) person_id)
         (table (db (load_person legacy_districts data st).2) Membership)
       = List.filter (committee_membership (db st) person_id) (table (db st) Membership)).
Proof.
  split; [|split].
  - intros s person m Hm. apply (non_committee_visible s person m).
    unfold qs_rows in Hm. apply list_elem_of_In, filter_In in Hm. tauto.
  - intros ld data st. apply (respects_load_person ld data st).
  - intros ld data st Hco Hpk.
    assert (committee_invariant st (load_person ld data st).2) as (_ & _ & H).
    { pose proof (load_person_committee_invariant ld data st Hpk st) as H.
      destruct (load_person ld data st) as [[a|e|] st1]; apply H; by split. }
    exact H.
Qed.

(** Jane changes party: her party membership is replaced, her committee
    membership is the one that was stored. *)
Lemma load_person_keeps_committee_memberships_witness :
  cache_coherent ex_committee_member ∧
  primary_key (db ex_committee_member) Organization ∧
  (load_person ex_no_legacy ex_jane_republican ex_committee_member).1 = Ok (false, true) ∧
  List.filter (committee_membership (db ex_committee_member) (VStr "p1"))
    (table (db (load_person ex_no_legacy ex_jane_republican ex_committee_member).2)
       Membership)
  = List.filter (committee_membership (db ex_committee_member) (VStr "p1"))
      (table (db ex_committee_member) Membership).
Proof.
  assert (cache_coherent ex_committee_member) as Hco.
  { apply cache_coherentb_sound. vm_compute. reflexivity. }
  assert (primary_key (db ex_committee_member) Organization) as Hpk.
  { apply primary_keyb_sound. vm_compute. reflexivity. }
  split; [exact Hco|]. split; [exact Hpk|]. split; [vm_compute; reflexivity|].
  destruct load_person_keeps_committee_memberships as (_ & _ & H).
  exact (H ex_no_legacy ex_jane_republican ex_committee_member Hco Hpk (VStr "p1")).
Defined.
